(** * template-jsx: element trees and their serializer

    A shallow embedding of the library code of template-jsx
    ([createElement], [Element], [flatten], [render], [renderInternal],
    [createIndent], [createAttrs], [create], [If], [Switch], [Case],
    [Default], [Head], [HtmlPage]) and the properties of the rendering
    and of the tree construction that are checked against it.

    Conventions of the embedding.
    - A JavaScript string is a [string]; characters are taken in ASCII.
    - A JavaScript number is the value of an integer literal, [VNum n]
      for the literal [n], rounded as the language rounds it, or [NaN];
      [-0] is not told apart from [0] (they print alike, are both falsy
      and are equal).
    - An object is known by its identity and by what its conversions
      give.
    - An object of properties is the list of its keys and values, in
      the order of [Object.keys].
    - An optional field of the options holds a value or [undefined].
    - An indentation and an [indentSize] are integers. The arithmetic
      of the code on them is exact below [2 ^ 53]; beyond, it gives
      counts that [repeat] refuses as it refuses the exact ones, the
      maximal length of a string being below [2 ^ 53].
    - A call that can throw returns a [result]: [Ok v] or [Throw e].
    - The maximal length of a string is a parameter of the engine. It
      is checked where the code asks for a string of a computed length
      ([repeat]); the texts that the code puts together by
      concatenation are taken to be strings that the engine allows. *)

From Stdlib Require Import String Ascii List ZArith Bool Lia.
From Stdlib Require Import Numbers.DecimalString.
Import ListNotations.

Local Open Scope Z_scope.
Local Open Scope list_scope.

Infix "+++" := String.append (at level 60, right associativity).

(** ** Exceptions *)

(** [Thrown tag]: what a method of an object has thrown. *)
Inductive error : Type :=
| TypeError
| RangeError
| Thrown (tag : nat).

Inductive result (A : Type) : Type :=
| Ok (a : A)
| Throw (e : error).

Arguments Ok {A} a.
Arguments Throw {A} e.

Definition bind {A B : Type} (m : result A) (k : A -> result B) : result B :=
  match m with
  | Ok a => k a
  | Throw e => Throw e
  end.

Notation "x <- m ;; k" := (bind m (fun x => k))
  (at level 61, m at next level, right associativity).

(** [Array.prototype.map] with a callback that can throw: the elements
    are visited from left to right and the first exception ends the
    call. *)
Definition mapM {A B : Type} (f : A -> result B) : list A -> result (list B) :=
  fix go (l : list A) : result (list B) :=
    match l with
    | [] => Ok []
    | a :: r => b <- f a ;; bs <- go r ;; Ok (b :: bs)
    end.

(** ** Strings *)

Definition dquote : string := String (ascii_of_nat 34) EmptyString.
Definition newline : string := String (ascii_of_nat 10) EmptyString.

(** [Array.prototype.join] on an array of strings. *)
Fixpoint join (sep : string) (l : list string) : string :=
  match l with
  | [] => EmptyString
  | [s] => s
  | s :: r => s +++ sep +++ join sep r
  end.

Fixpoint repeat_nat (s : string) (n : nat) : string :=
  match n with
  | O => EmptyString
  | S k => s +++ repeat_nat s k
  end.

(** ** Numbers

    The numbers that the code meets: the integers among the doubles,
    the infinities and [NaN]. [NFrac] stands for a finite number that
    is not an integer, which a string can denote and which is equal to
    none of the others. *)

Inductive number : Type :=
| NNaN
| NInf (negative : bool)
| NInt (z : Z)
| NFrac.

(** Equality of numbers, as [==] and [===] have it. *)
Definition number_eqb (x y : number) : bool :=
  match x, y with
  | NInt a, NInt b => a =? b
  | NInf s, NInf t => Bool.eqb s t
  | _, _ => false
  end.

Definition number_opp (x : number) : number :=
  match x with
  | NInt z => NInt (- z)
  | NInf s => NInf (negb s)
  | _ => x
  end.

(** The integer nearest to [a / b], the even one of two that are as
    near; [0 <= a] and [0 < b]. *)
Definition round_div (a b : Z) : Z :=
  let q := a / b in
  let r := a mod b in
  if 2 * r <? b then q
  else if b <? 2 * r then q + 1
  else if Z.even q then q else q + 1.

(** The integer part of the binary logarithm of [a / b]; [0 < a] and
    [0 < b]. *)
Definition log2_ratio (a b : Z) : Z :=
  let l := Z.log2 a - Z.log2 b in
  if (if 0 <=? l then b * 2 ^ l <=? a else b <=? a * 2 ^ (- l)) then l else l - 1.

(** The double nearest to [a / b], ties to even, with 53 bits of
    precision, exponents down to -1074 and overflow to infinity;
    [0 <= a] and [0 < b]. *)
Definition round_ratio (a b : Z) : number :=
  if a =? 0 then NInt 0
  else
    let e := Z.max (log2_ratio a b - 52) (-1074) in
    if 0 <=? e then
      let v := round_div a (b * 2 ^ e) * 2 ^ e in
      if 2 ^ 1024 <=? v then NInf false else NInt v
    else
      let q := round_div (a * 2 ^ (- e)) b in
      if q mod 2 ^ (- e) =? 0 then NInt (q / 2 ^ (- e)) else NFrac.

(** The number that the integer literal [z] evaluates to. *)
Definition number_of_Z (z : Z) : number :=
  if z <? 0 then number_opp (round_ratio (- z) 1) else round_ratio z 1.

(** *** [ToNumber] on a string *)

Definition is_space (c : ascii) : bool :=
  let n := nat_of_ascii c in
  ((9 <=? n) && (n <=? 13))%nat || (n =? 32)%nat.

Fixpoint trim_start (s : string) : string :=
  match s with
  | String c r => if is_space c then trim_start r else s
  | EmptyString => EmptyString
  end.

Fixpoint rev_string (s acc : string) : string :=
  match s with
  | EmptyString => acc
  | String c r => rev_string r (String c acc)
  end.

Definition trim (s : string) : string :=
  rev_string (trim_start (rev_string (trim_start s) EmptyString)) EmptyString.

Definition digit_value (c : ascii) : option Z :=
  let n := nat_of_ascii c in
  if ((48 <=? n) && (n <=? 57))%nat then Some (Z.of_nat n - 48)
  else if ((97 <=? n) && (n <=? 102))%nat then Some (Z.of_nat n - 87)
  else if ((65 <=? n) && (n <=? 70))%nat then Some (Z.of_nat n - 55)
  else None.

(** Reads the longest prefix of digits of the base; returns their value,
    their count and the rest. *)
Fixpoint read_digits (base : Z) (s : string) (acc : Z) (cnt : nat) : Z * nat * string :=
  match s with
  | EmptyString => (acc, cnt, s)
  | String c r =>
    match digit_value c with
    | Some d => if d <? base then read_digits base r (acc * base + d) (S cnt)
                else (acc, cnt, s)
    | None => (acc, cnt, s)
    end
  end.

Definition radix_literal (base : Z) (s : string) : number :=
  match read_digits base s 0 O with
  | (v, S _, EmptyString) => round_ratio v 1
  | _ => NNaN
  end.

Definition is_char (n : nat) (c : ascii) : bool := (nat_of_ascii c =? n)%nat.

(** The exponent part of a decimal literal, [None] when ill-formed;
    an absent exponent is [0]. *)
Definition read_exponent (s : string) : option Z :=
  match s with
  | EmptyString => Some 0
  | String c r =>
    if is_char 101 c || is_char 69 c then
      let '(sg, r') :=
        match r with
        | String d r'' =>
          if is_char 43 d then (1, r'')
          else if is_char 45 d then (-1, r'')
          else (1, r)
        | EmptyString => (1, r)
        end in
      match read_digits 10 r' 0 O with
      | (v, S _, EmptyString) => Some (sg * v)
      | _ => None
      end
    else None
  end.

(** The double nearest to [m * 10 ^ k]; [0 <= m]. *)
Definition scale10 (m k : Z) : number :=
  if 0 <=? k then round_ratio (m * 10 ^ k) 1 else round_ratio m (10 ^ (- k)).

(** An unsigned decimal literal: [Infinity], or digits, an optional
    fraction and an optional exponent, with at least one digit before
    or after the point. *)
Definition unsigned_decimal (s : string) : number :=
  if String.eqb s "Infinity"%string then NInf false
  else
    let '(ip, ni, r1) := read_digits 10 s 0 O in
    let '(m, nf, r2) :=
      match r1 with
      | String c r =>
        if is_char 46 c then
          let '(m, nf, r2) := read_digits 10 r ip O in (m, nf, r2)
        else (ip, O, r1)
      | EmptyString => (ip, O, r1)
      end in
    match (ni + nf)%nat with
    | O => NNaN
    | S _ =>
      match read_exponent r2 with
      | Some e => scale10 m (e - Z.of_nat nf)
      | None => NNaN
      end
    end.

(** [ToNumber] on a string (StringToNumber): the literal is rounded to
    the nearest double. *)
Definition string_to_number (s : string) : number :=
  match trim s with
  | EmptyString => NInt 0
  | String c r as t =>
    if is_char 43 c then unsigned_decimal r
    else if is_char 45 c then number_opp (unsigned_decimal r)
    else
      match r with
      | String x r' =>
        if is_char 48 c && (is_char 120 x || is_char 88 x) then radix_literal 16 r'
        else if is_char 48 c && (is_char 111 x || is_char 79 x) then radix_literal 8 r'
        else if is_char 48 c && (is_char 98 x || is_char 66 x) then radix_literal 2 r'
        else unsigned_decimal t
      | EmptyString => unsigned_decimal t
      end
  end.

(** *** [Number.prototype.toString] *)

(** All the digits of an integer. *)
Definition exact_decimal (z : Z) : string :=
  NilZero.string_of_int (Z.to_int z).

Definition rounds_to (v x : Z) : bool :=
  match round_ratio v 1 with
  | NInt y => y =? x
  | _ => false
  end.

(** A decimal with [k] digits before its zeros that rounds to the
    double [x] of [n] digits, the nearest to [x] if there are two. *)
Definition candidate (x n k : Z) : option Z :=
  let p := 10 ^ (n - k) in
  let lo := x / p * p in
  let hi := lo + p in
  match rounds_to lo x, rounds_to hi x with
  | true, true =>
    Some (if x - lo <? hi - x then lo
          else if hi - x <? x - lo then hi
          else if Z.even (x / p) then lo else hi)
  | true, false => Some lo
  | false, true => Some hi
  | false, false => None
  end.

Fixpoint shortest (x n : Z) (ks : list Z) : Z :=
  match ks with
  | [] => x
  | k :: r =>
    if n <? k then x
    else match candidate x n k with
         | Some v => v
         | None => shortest x n r
         end
  end.

(** The decimal with the fewest digits, 17 at most, that rounds to the
    double [x]; [0 < x]. *)
Definition shortest_decimal (x : Z) : Z :=
  shortest x (Z.of_nat (String.length (exact_decimal x))) (map Z.of_nat (seq 1 17)).

Fixpoint strip_zeros_start (s : string) : string :=
  match s with
  | String c r => if is_char 48 c then strip_zeros_start r else s
  | EmptyString => EmptyString
  end.

Definition strip_zeros_end (s : string) : string :=
  rev_string (strip_zeros_start (rev_string s EmptyString)) EmptyString.

(** A positive integer double in the format of the language: its
    shortest decimal, written out up to 21 digits and with an exponent
    beyond. *)
Definition positive_to_string (x : Z) : string :=
  let d := exact_decimal (shortest_decimal x) in
  let n := Z.of_nat (String.length d) in
  if n <=? 21 then d
  else
    match strip_zeros_end d with
    | String c EmptyString => (String c EmptyString +++ "e+" +++ exact_decimal (n - 1))%string
    | String c r => (String c EmptyString +++ "." +++ r +++ "e+" +++ exact_decimal (n - 1))%string
    | EmptyString => d
    end.

Definition number_to_string (x : number) : string :=
  match x with
  | NNaN | NFrac => "NaN"%string
  | NInf false => "Infinity"%string
  | NInf true => "-Infinity"%string
  | NInt z =>
    if z =? 0 then "0"%string
    else if z <? 0 then ("-" +++ positive_to_string (- z))%string
    else positive_to_string z
  end.

(** [Number.prototype.toString] on the number of the literal [n]. *)
Definition Z_to_string (n : Z) : string :=
  number_to_string (number_of_Z n).

(** ** Values of properties

    [Props] is [{ [key: string]: any }]. A symbol is known by its
    identity. An object is known by its identity [id], by the primitive
    [prim] that [==] converts it to, and by the outcome [str] of its
    conversion to a string in a template literal, which is a string or
    what the conversion throws. (The objects are those that [==] can
    convert to a primitive; the conversion of a template literal is
    free to throw.) *)

Inductive primitive : Type :=
| PUndefined
| PNull
| PBool (b : bool)
| PNum (n : Z)
| PNaN
| PStr (s : string)
| PSym (id : nat).

Inductive value : Type :=
| VUndefined
| VNull
| VBool (b : bool)
| VNum (n : Z)
| VNaN
| VStr (s : string)
| VSym (id : nat)
| VObj (id : nat) (prim : primitive) (str : result string).

Definition of_primitive (p : primitive) : value :=
  match p with
  | PUndefined => VUndefined
  | PNull => VNull
  | PBool b => VBool b
  | PNum n => VNum n
  | PNaN => VNaN
  | PStr s => VStr s
  | PSym id => VSym id
  end.

(** [ToBoolean]. *)
Definition truthy (v : value) : bool :=
  match v with
  | VUndefined | VNull | VNaN => false
  | VBool b => b
  | VNum n => negb (n =? 0)
  | VStr s => negb (String.eqb s EmptyString)
  | VSym _ => true
  | VObj _ _ _ => true
  end.

(** [ToString], as a template literal applies it: a symbol is a
    [TypeError], an object gives what its conversion gives. *)
Definition to_string (v : value) : result string :=
  match v with
  | VUndefined => Ok "undefined"%string
  | VNull => Ok "null"%string
  | VBool true => Ok "true"%string
  | VBool false => Ok "false"%string
  | VNum n => Ok (Z_to_string n)
  | VNaN => Ok "NaN"%string
  | VStr s => Ok s
  | VSym _ => Throw TypeError
  | VObj _ _ s => s
  end.

Definition bool_to_number (b : bool) : number := NInt (if b then 1 else 0).

(** The operator [==] (IsLooselyEqual) on two primitives. Operands of
    one type are compared as they are; [null] and [undefined] are equal
    to each other; a boolean is first converted to a number, and a
    string compared with a number is converted to a number. *)
Definition loose_eq_prim (x y : value) : bool :=
  match x, y with
  | VUndefined, (VUndefined | VNull) => true
  | VNull, (VUndefined | VNull) => true
  | VBool a, VBool b => Bool.eqb a b
  | VNum a, VNum b => number_eqb (number_of_Z a) (number_of_Z b)
  | VStr a, VStr b => String.eqb a b
  | VSym a, VSym b => Nat.eqb a b
  | VNum a, VStr s => number_eqb (number_of_Z a) (string_to_number s)
  | VStr s, VNum a => number_eqb (string_to_number s) (number_of_Z a)
  | VBool a, VNum b => number_eqb (bool_to_number a) (number_of_Z b)
  | VNum b, VBool a => number_eqb (number_of_Z b) (bool_to_number a)
  | VBool a, VStr s => number_eqb (bool_to_number a) (string_to_number s)
  | VStr s, VBool a => number_eqb (string_to_number s) (bool_to_number a)
  | _, _ => false
  end.

(** The operator [==]. Two objects are equal when they are the same
    object; an object and a boolean, a number, a string or a symbol are
    compared through the primitive of the object; an object is equal to
    neither [null] nor [undefined]. *)
Definition loose_eq (x y : value) : bool :=
  match x, y with
  | VObj i _ _, VObj j _ _ => Nat.eqb i j
  | VObj _ _ _, (VUndefined | VNull) => false
  | (VUndefined | VNull), VObj _ _ _ => false
  | VObj _ p _, _ => loose_eq_prim (of_primitive p) y
  | _, VObj _ p _ => loose_eq_prim x (of_primitive p)
  | _, _ => loose_eq_prim x y
  end.

(** The operator [===] on the same values, for comparison. *)
Definition strict_eq (x y : value) : bool :=
  match x, y with
  | VUndefined, VUndefined => true
  | VNull, VNull => true
  | VBool a, VBool b => Bool.eqb a b
  | VNum a, VNum b => number_eqb (number_of_Z a) (number_of_Z b)
  | VStr a, VStr b => String.eqb a b
  | VSym a, VSym b => Nat.eqb a b
  | VObj i _ _, VObj j _ _ => Nat.eqb i j
  | _, _ => false
  end.

(** The type tag of a value ([typeof], with [null] on its own). *)
Inductive vtype : Type :=
| TUndefined | TNull | TBoolean | TNumber | TString | TSymbol | TObject.

Definition type_of (v : value) : vtype :=
  match v with
  | VUndefined => TUndefined
  | VNull => TNull
  | VBool _ => TBoolean
  | VNum _ | VNaN => TNumber
  | VStr _ => TString
  | VSym _ => TSymbol
  | VObj _ _ _ => TObject
  end.

Definition vtype_eqb (a b : vtype) : bool :=
  match a, b with
  | TUndefined, TUndefined | TNull, TNull | TBoolean, TBoolean
  | TNumber, TNumber | TString, TString | TSymbol, TSymbol
  | TObject, TObject => true
  | _, _ => false
  end.

(** ** Property objects

    An object with string keys, as the list of its own properties in
    the order [Object.keys] gives them. *)

Definition Props : Type := list (string * value).

(** [props[k]]: a missing property reads as [undefined]. *)
Fixpoint get (props : Props) (k : string) : value :=
  match props with
  | [] => VUndefined
  | (k', v) :: r => if String.eqb k' k then v else get r k
  end.

(** [props[k] = v]: an own property keeps its place, a new one comes
    last. *)
Fixpoint set (props : Props) (k : string) (v : value) : Props :=
  match props with
  | [] => [(k, v)]
  | (k', v') :: r => if String.eqb k' k then (k', v) :: r else (k', v') :: set r k v
  end.

Definition keys (props : Props) : list string := map fst props.

(** ** Elements and nodes *)

(** The name of an element: a tag name or one of the symbols
    [Fragment], [HTML], [CASE], [DEFAULT], [HEAD]. *)
Inductive Name : Type :=
| Tag (s : string)
| Fragment
| HTML
| CASE
| DEFAULT
| HEAD.

Definition Name_eqb (a b : Name) : bool :=
  match a, b with
  | Tag s, Tag t => String.eqb s t
  | Fragment, Fragment | HTML, HTML | CASE, CASE
  | DEFAULT, DEFAULT | HEAD, HEAD => true
  | _, _ => false
  end.

(** [type Node = Element | string | Node[]] and [class Element]. *)
#[local] Set Warnings "-register-all".
Inductive Node : Type :=
| Text (s : string)
| Arr (items : list Node)
| Elem (e : Element)
with Element : Type :=
| mkElement (name : Name) (props : Props) (children : list Node).

Definition name (e : Element) : Name := let 'mkElement n _ _ := e in n.
Definition props (e : Element) : Props := let 'mkElement _ p _ := e in p.
Definition children (e : Element) : list Node := let 'mkElement _ _ c := e in c.

(** [flatten], on one child and on the array of children. *)
Fixpoint flatten1 (c : Node) : list Node :=
  match c with
  | Arr items =>
    (fix go (l : list Node) : list Node :=
       match l with
       | [] => []
       | x :: r => flatten1 x ++ go r
       end) items
  | Elem (mkElement Fragment _ ch) =>
    (fix go (l : list Node) : list Node :=
       match l with
       | [] => []
       | x :: r => flatten1 x ++ go r
       end) ch
  | _ => [c]
  end.

Definition flatten (childs : list Node) : list Node :=
  flat_map flatten1 childs.

(** [new Element(name, props, children)]. *)
Definition new_Element (nm : Name) (ps : Props) (childs : list Node) : Element :=
  mkElement nm ps (flatten childs).

(** ** Rendering options *)

(** [useSelfCloseTags: boolean | string[]], and [undefined] for an
    optional field. *)
Inductive SelfCloseTags : Type :=
| SCBool (b : bool)
| SCList (tags : list string)
| SCUndefined.

(** The options as [renderInternal] receives them. Each of the three
    first fields holds a value or [None] for [undefined]. *)
Record RenderOptions : Type := mkRenderOptions {
  indent_field : option bool;
  indentString_field : option string;
  indentSize_field : option Z;
  useSelfCloseTags : SelfCloseTags
}.

(** Options with a value in every field. *)
Definition mkOptions (i : bool) (s : string) (z : Z) (u : SelfCloseTags) : RenderOptions :=
  mkRenderOptions (Some i) (Some s) (Some z) u.

(** The truth value of [options.indent]: every use of the field in the
    code is a test of it. *)
Definition indent (options : RenderOptions) : bool :=
  match indent_field options with
  | Some b => b
  | None => false
  end.

(** The options as a caller of [render] writes them: a field is left
    out ([None]) or present, and when present it holds a value or
    [undefined]. *)
Record PartialOptions : Type := mkPartialOptions {
  p_indent : option (option bool);
  p_indentString : option (option string);
  p_indentSize : option (option Z);
  p_useSelfCloseTags : option SelfCloseTags
}.

(** Options in which every field that is present has a value. *)
Definition mkPartial (i : option bool) (s : option string) (z : option Z)
    (u : option SelfCloseTags) : PartialOptions :=
  mkPartialOptions (option_map Some i) (option_map Some s) (option_map Some z) u.

Definition no_options : PartialOptions := mkPartial None None None None.

Definition or_default {A : Type} (d : A) (o : option A) : A :=
  match o with
  | Some a => a
  | None => d
  end.

(** The defaults of [render] (no indentation, an empty
    [indentString], an [indentSize] of 4, [useSelfCloseTags] true),
    overridden by the fields of [options] that are present, those that
    hold [undefined] included. *)
Definition with_defaults (options : PartialOptions) : RenderOptions :=
  mkRenderOptions (or_default (Some false) (p_indent options))
                  (or_default (Some EmptyString) (p_indentString options))
                  (or_default (Some 4) (p_indentSize options))
                  (or_default (SCBool true) (p_useSelfCloseTags options)).

(** [options.useSelfCloseTags == true]. An array operand is converted
    to the string of its elements joined by commas, and that string to
    a number, which is compared with [1]. *)
Definition equals_true (u : SelfCloseTags) : bool :=
  match u with
  | SCBool b => b
  | SCList l => number_eqb (string_to_number (join ","%string l)) (NInt 1)
  | SCUndefined => false
  end.

(** [options.useSelfCloseTags instanceof Array &&
     options.useSelfCloseTags.includes(node.name)]: a symbol is not a
    member of an array of strings. *)
Definition includes_name (u : SelfCloseTags) (n : Name) : bool :=
  match u, n with
  | SCList l, Tag s => existsb (String.eqb s) l
  | _, _ => false
  end.

Definition createAttrs (props : Props) : result string :=
  attrs <- mapM (fun k => v <- to_string (get props k) ;;
                          Ok (" " +++ k +++ "=" +++ dquote +++ v +++ dquote)%string)
                (keys props) ;;
  Ok (join EmptyString attrs).

(** The name of an element inside a template literal: a symbol is a
    [TypeError]. *)
Definition name_to_string (n : Name) : result string :=
  match n with
  | Tag s => Ok s
  | _ => Throw TypeError
  end.

(** [if (node.props.className && !node.props.class)
       node.props.class = node.props.className;]
    gives the properties of the node after the statement. The
    statement writes into the object of the node; running it again on
    the result changes nothing. *)
Definition alias_class (props : Props) : Props :=
  if truthy (get props "className"%string) && negb (truthy (get props "class"%string))
  then set props "class"%string (get props "className"%string)
  else props.

(** [n instanceof Element && n.name == HEAD]. *)
Definition is_HEAD (n : Node) : bool :=
  match n with
  | Elem e => Name_eqb (name e) HEAD
  | _ => false
  end.

(** [Array.prototype.findIndex]: the index of the first element the
    predicate holds of, or [-1]. *)
Fixpoint findIndex {A : Type} (p : A -> bool) (l : list A) : Z :=
  match l with
  | [] => -1
  | a :: r => if p a then 0
              else let i := findIndex p r in
                   if i =? -1 then -1 else i + 1
  end.

(** [a.splice(index, 1)] for an index of the array: the array after the
    call. *)
Definition splice1 {A : Type} (l : list A) (index : Z) : list A :=
  firstn (Z.to_nat index) l ++ skipn (S (Z.to_nat index)) l.

(** [(children[index] as Element).children]. *)
Definition children_at (l : list Node) (index : Z) : list Node :=
  match nth_error l (Z.to_nat index) with
  | Some (Elem e) => children e
  | _ => []
  end.

Definition nl (options : RenderOptions) : string :=
  if indent options then newline else EmptyString.

Definition nonempty {A : Type} (l : list A) : bool :=
  negb (Nat.eqb (List.length l) 0).

(** Two walks over the array of children of an [HTML] element, which
    reach what [findIndex] and [splice] select: [on_first_head k d]
    applies [k] to the children of the first [HEAD] element ([d] when
    there is none), and [mapM_rest f l false] maps [f] over the
    elements other than the first [HEAD] element. *)
Definition on_first_head {B : Type} (k : list Node -> B) (d : B) : list Node -> B :=
  fix go (l : list Node) : B :=
    match l with
    | [] => d
    | n :: r =>
      match n with
      | Elem (mkElement HEAD _ hch) => k hch
      | _ => go r
      end
    end.

Definition mapM_rest {B : Type} (f : Node -> result B) : list Node -> bool -> result (list B) :=
  fix go (l : list Node) (found : bool) : result (list B) :=
    match l with
    | [] => Ok []
    | n :: r =>
      if negb found && is_HEAD n then go r true
      else s <- f n ;; ss <- go r found ;; Ok (s :: ss)
    end.

(** ** Element generators *)

(** [If]. *)
Definition If (cond : bool) (childs : list Node) : Element :=
  if cond then new_Element Fragment [] childs
  else new_Element Fragment [] [].

(** [c instanceof Element && c.name == CASE && c.props.c == expr]. *)
Definition is_case_of (expr : value) (c : Node) : bool :=
  match c with
  | Elem e => Name_eqb (name e) CASE && loose_eq (get (props e) "c"%string) expr
  | _ => false
  end.

(** [c instanceof Element && c.name == DEFAULT]. *)
Definition is_DEFAULT (c : Node) : bool :=
  match c with
  | Elem e => Name_eqb (name e) DEFAULT
  | _ => false
  end.

(** [Switch]. What [find] returns is an element, which is truthy. *)
Definition Switch (expr : value) (childs : list Node) : Element :=
  match find (is_case_of expr) childs with
  | Some (Elem found) => new_Element Fragment [] (children found)
  | _ =>
    match find is_DEFAULT childs with
    | Some (Elem def) => new_Element Fragment [] (children def)
    | _ => new_Element Fragment [] []
    end
  end.

(** [Case], [Default], [Head] and [HtmlPage]. *)
Definition Case (c : value) (childs : list Node) : Element :=
  new_Element CASE [("c"%string, c)] childs.

Definition Default (childs : list Node) : Element :=
  new_Element DEFAULT [] childs.

Definition Head (ps : Props) (childs : list Node) : Element :=
  new_Element HEAD ps childs.

Definition HtmlPage (ps : Props) (childs : list Node) : Element :=
  new_Element HTML ps childs.

(** [createElement] for a name that is not a generator function;
    [props ?? {}] with [None] for [null]. A generator is called as the
    function it is. *)
Definition createElement (nm : Name) (ps : option Props) (childs : list Node) : Element :=
  if Name_eqb nm Fragment then new_Element Fragment [] childs
  else new_Element nm (or_default [] ps) childs.

(** ** The engine

    The maximal length of a string is a constant of the engine that
    runs the code. The language bounds it by [2 ^ 53 - 1]. *)

Class Engine : Type := mkEngine {
  max_string_length : Z;
  max_string_length_range : 0 <= max_string_length < 2 ^ 53
}.

(** The engine of Node.js: V8, on 64 bits. *)
Definition node_engine : Engine.
Proof.
  refine (mkEngine (2 ^ 29 - 24) _).
  split; [discriminate | reflexivity].
Defined.

Section Rendering.

Context {engine : Engine}.

(** [String.prototype.repeat]: a negative count is a [RangeError], and
    so is a count that gives a string longer than the engine allows. *)
Definition repeat (s : string) (count : Z) : result string :=
  if count <? 0 then Throw RangeError
  else if max_string_length <? count * Z.of_nat (String.length s) then Throw RangeError
  else Ok (repeat_nat s (Z.to_nat count)).

(** [createIndent]. With [indent] set and [indentString] undefined, the
    test [options.indentString != ""] holds and the call of [repeat] on
    [undefined] is a [TypeError]; with [indentSize] undefined, the test
    [options.indentSize != 0] holds and the count is [NaN], for which
    [repeat] gives the empty string. *)
Definition createIndent (options : RenderOptions) (indentation : Z) : result string :=
  if negb (indent options) then Ok EmptyString
  else
    match indentString_field options with
    | None => Throw TypeError
    | Some s =>
      if negb (String.eqb s EmptyString) then repeat s indentation
      else
        match indentSize_field options with
        | None => Ok EmptyString
        | Some z =>
          if negb (z =? 0) then repeat " "%string (indentation * z)
          else Ok EmptyString
        end
    end.

(** The body of [renderInternal], with the function to call on the
    nodes below. *)
Definition renderInternal_body
    (rec : Node -> RenderOptions -> Z -> result string)
    (node : Node) (options : RenderOptions) (indentation : Z) : result string :=
  match node with
  | Text s =>
    i <- createIndent options indentation ;; Ok (i +++ s)
  | Arr items =>
    rs <- mapM (fun n => rec n options indentation) items ;;
    Ok (join (nl options) rs)
  | Elem node =>
    if Name_eqb (name node) Fragment then
      rs <- mapM (fun n => rec n options indentation) (children node) ;;
      Ok (join (nl options) rs)
    else if Name_eqb (name node) HTML then
      indentString <- createIndent options indentation ;;
      let children0 := children node in
      let index := findIndex is_HEAD children0 in
      let head := if index =? -1 then [] else children_at children0 index in
      let children1 := if index =? -1 then children0 else splice1 children0 index in
      let result := (indentString +++ "<!DOCTYPE html>" +++ nl options)%string in
      let result := (result +++ indentString +++ "<html>" +++ nl options)%string in
      let result := (result +++ indentString +++ "<head>" +++ nl options)%string in
      h <- rec (Arr head) options (indentation + 1) ;;
      let result := result +++ h +++
                    (if indent options && nonempty head then newline else EmptyString) in
      let result := (result +++ indentString +++ "</head>" +++ nl options)%string in
      let result := (result +++ indentString +++ "<body>" +++ nl options)%string in
      rs <- mapM (fun n => rec n options (indentation + 1)) children1 ;;
      let result := result +++ join (nl options) rs in
      let result := if nonempty children1 && indent options
                    then result +++ newline else result in
      let result := (result +++ indentString +++ "</body>" +++ nl options)%string in
      let result := (result +++ indentString +++ "</html>")%string in
      Ok result
    else
      let selfClose :=
        Nat.eqb (List.length (children node)) 0
        && (equals_true (useSelfCloseTags options)
            || includes_name (useSelfCloseTags options) (name node)) in
      let props1 := alias_class (props node) in
      attrs <- createAttrs props1 ;;
      indentString <- createIndent options indentation ;;
      tag <- name_to_string (name node) ;;
      let result := (indentString +++ "<" +++ tag +++ attrs +++
                     (if selfClose then " /" else EmptyString) +++ ">")%string in
      if negb selfClose then
        let result := if nonempty (children node) && indent options
                      then result +++ newline else result in
        rs <- mapM (fun n => rec n options (indentation + 1)) (children node) ;;
        let result := result +++ join (nl options) rs in
        let result := if nonempty (children node) && indent options
                      then result +++ newline +++ indentString else result in
        let result := (result +++ "</" +++ tag +++ ">")%string in
        Ok result
      else Ok result
  end.

(** [renderInternal]. The recursion is on the structure of the node:
    the children of the head element and the children left after the
    [splice] are reached by the two walks above.  [renderInternal_eq]
    below shows that the function satisfies the equation of
    [renderInternal_body]. *)
Fixpoint renderInternal (node : Node) (options : RenderOptions) (indentation : Z)
    {struct node} : result string :=
  match node with
  | Text s =>
    i <- createIndent options indentation ;; Ok (i +++ s)
  | Arr items =>
    rs <- mapM (fun n => renderInternal n options indentation) items ;;
    Ok (join (nl options) rs)
  | Elem (mkElement nm ps ch) =>
    match nm with
    | Fragment =>
      rs <- mapM (fun n => renderInternal n options indentation) ch ;;
      Ok (join (nl options) rs)
    | HTML =>
      indentString <- createIndent options indentation ;;
      let index := findIndex is_HEAD ch in
      let head := if index =? -1 then [] else children_at ch index in
      let children1 := if index =? -1 then ch else splice1 ch index in
      let result := (indentString +++ "<!DOCTYPE html>" +++ nl options)%string in
      let result := (result +++ indentString +++ "<html>" +++ nl options)%string in
      let result := (result +++ indentString +++ "<head>" +++ nl options)%string in
      hs <- on_first_head
              (mapM (fun x => renderInternal x options (indentation + 1)))
              (Ok []) ch ;;
      let result := result +++ join (nl options) hs +++
                    (if indent options && nonempty head then newline else EmptyString) in
      let result := (result +++ indentString +++ "</head>" +++ nl options)%string in
      let result := (result +++ indentString +++ "<body>" +++ nl options)%string in
      rs <- mapM_rest (fun n => renderInternal n options (indentation + 1)) ch false ;;
      let result := result +++ join (nl options) rs in
      let result := if nonempty children1 && indent options
                    then result +++ newline else result in
      let result := (result +++ indentString +++ "</body>" +++ nl options)%string in
      let result := (result +++ indentString +++ "</html>")%string in
      Ok result
    | _ =>
      let selfClose :=
        Nat.eqb (List.length ch) 0
        && (equals_true (useSelfCloseTags options)
            || includes_name (useSelfCloseTags options) nm) in
      let props1 := alias_class ps in
      attrs <- createAttrs props1 ;;
      indentString <- createIndent options indentation ;;
      tag <- name_to_string nm ;;
      let result := (indentString +++ "<" +++ tag +++ attrs +++
                     (if selfClose then " /" else EmptyString) +++ ">")%string in
      if negb selfClose then
        let result := if nonempty ch && indent options
                      then result +++ newline else result in
        rs <- mapM (fun n => renderInternal n options (indentation + 1)) ch ;;
        let result := result +++ join (nl options) rs in
        let result := if nonempty ch && indent options
                      then result +++ newline +++ indentString else result in
        let result := (result +++ "</" +++ tag +++ ">")%string in
        Ok result
      else Ok result
    end
  end.

(** [render(top, options = {}, indentation = 0)]. The parameter is
    declared as an [Element]; any node passes through to
    [renderInternal]. *)
Definition render (top : Node) (options : PartialOptions) (indentation : Z) : result string :=
  renderInternal top (with_defaults options) indentation.

(** * Vocabulary of the properties *)

(** Induction on nodes, with the hypothesis for every member of an
    array and for every child of an element. *)
Section Node_induction.
Variable P : Node -> Prop.
Hypothesis HText : forall s, P (Text s).
Hypothesis HArr : forall items, Forall P items -> P (Arr items).
Hypothesis HElem : forall nm ps ch, Forall P ch -> P (Elem (mkElement nm ps ch)).

Fixpoint Node_nested_ind (n : Node) : P n :=
  match n with
  | Text s => HText s
  | Arr items =>
    HArr items
      ((fix all (l : list Node) : Forall P l :=
          match l with
          | [] => Forall_nil P
          | x :: r => Forall_cons x (Node_nested_ind x) (all r)
          end) items)
  | Elem (mkElement nm ps ch) =>
    HElem nm ps ch
      ((fix all (l : list Node) : Forall P l :=
          match l with
          | [] => Forall_nil P
          | x :: r => Forall_cons x (Node_nested_ind x) (all r)
          end) ch)
  end.
End Node_induction.

(** In the branch of [renderInternal] for a document: the array [head]
    and the array [children] after the [splice], from the children
    [ch] of the node. *)
Definition head_of (ch : list Node) : list Node :=
  if findIndex is_HEAD ch =? -1 then [] else children_at ch (findIndex is_HEAD ch).

Definition rest_of (ch : list Node) : list Node :=
  if findIndex is_HEAD ch =? -1 then ch else splice1 ch (findIndex is_HEAD ch).

(** A child that [flatten] keeps as it is: neither an array nor a
    fragment. *)
Definition is_flat (c : Node) : bool :=
  match c with
  | Text _ => true
  | Arr _ => false
  | Elem e => negb (Name_eqb (name e) Fragment)
  end.

(** The trees that construction builds: every element comes from
    [new Element], whose arguments are strings, arrays and elements
    built the same way. *)
Inductive constructed : Node -> Prop :=
| constructed_Text (s : string) : constructed (Text s)
| constructed_Arr (items : list Node) :
    Forall constructed items -> constructed (Arr items)
| constructed_Elem (nm : Name) (ps : Props) (childs : list Node) :
    Forall constructed childs -> constructed (Elem (new_Element nm ps childs)).

(** The invariant of the trees: in every element of the tree, no child
    is an array or a fragment. *)
Inductive invariant : Node -> Prop :=
| invariant_Text (s : string) : invariant (Text s)
| invariant_Arr (items : list Node) :
    Forall invariant items -> invariant (Arr items)
| invariant_Elem (nm : Name) (ps : Props) (ch : list Node) :
    forallb is_flat ch = true -> Forall invariant ch ->
    invariant (Elem (mkElement nm ps ch)).

(** Induction on the construction of a tree. *)
Section constructed_induction.
Variable P : Node -> Prop.
Hypothesis HText : forall s, P (Text s).
Hypothesis HArr : forall items, Forall P items -> P (Arr items).
Hypothesis HElem : forall nm ps childs,
  Forall P childs -> P (Elem (new_Element nm ps childs)).

Fixpoint constructed_nested_ind (n : Node) (c : constructed n) {struct c} : P n :=
  match c in constructed n0 return P n0 with
  | constructed_Text s => HText s
  | constructed_Arr items H =>
    HArr items
      ((fix all (l : list Node) (F : Forall constructed l) {struct F} : Forall P l :=
          match F in Forall _ l0 return Forall P l0 with
          | Forall_nil _ => Forall_nil P
          | Forall_cons x Hx Hr => Forall_cons x (constructed_nested_ind x Hx) (all _ Hr)
          end) items H)
  | constructed_Elem nm ps childs H =>
    HElem nm ps childs
      ((fix all (l : list Node) (F : Forall constructed l) {struct F} : Forall P l :=
          match F in Forall _ l0 return Forall P l0 with
          | Forall_nil _ => Forall_nil P
          | Forall_cons x Hx Hr => Forall_cons x (constructed_nested_ind x Hx) (all _ Hr)
          end) childs H)
  end.
End constructed_induction.

(** The text of a document, from the indentation string, the rendered
    head content and the rendered remaining children. *)
Definition document_text (options : RenderOptions) (indentString : string)
    (head rest : list Node) (hs bs : list string) : string :=
  (indentString +++ "<!DOCTYPE html>" +++ nl options +++
   indentString +++ "<html>" +++ nl options +++
   indentString +++ "<head>" +++ nl options +++
   join (nl options) hs +++
   (if indent options && nonempty head then newline else EmptyString) +++
   indentString +++ "</head>" +++ nl options +++
   indentString +++ "<body>" +++ nl options +++
   join (nl options) bs +++
   (if nonempty rest && indent options then newline else EmptyString) +++
   indentString +++ "</body>" +++ nl options +++
   indentString +++ "</html>")%string.

(** The words of the specification for the split of the children of a
    document: the children of the first child whose kind is the head
    kind, nothing when there is none; and the children with that first
    head child removed. *)
Fixpoint first_head_children (ch : list Node) : list Node :=
  match ch with
  | [] => []
  | Elem (mkElement HEAD _ hch) :: _ => hch
  | _ :: r => first_head_children r
  end.

Fixpoint without_first_head (ch : list Node) : list Node :=
  match ch with
  | [] => []
  | Elem (mkElement HEAD _ _) :: r => r
  | c :: r => c :: without_first_head r
  end.

(** The number that [==] compares a boolean, a number or a string as,
    when the other operand is of another of these types. *)
Definition numeric_view (v : value) : number :=
  match v with
  | VBool b => bool_to_number b
  | VNum n => number_of_Z n
  | VStr s => string_to_number s
  | _ => NNaN
  end.

(** Two values that are one and the same value: the comparison of
    the operator [===]. Two numbers are the same when their literals
    denote one double, and [NaN] is the same as nothing. *)
Definition same_value (x y : value) : Prop :=
  match x, y with
  | VNum a, VNum b => number_of_Z a = number_of_Z b
  | VNaN, _ | _, VNaN => False
  | VObj i _ _, VObj j _ _ => i = j
  | _, _ => x = y
  end.

(** A case for the scrutinee by the words of the specification, which
    ask for equality without coercion:
    [c instanceof Element && c.name == CASE && c.props.c === expr]. *)
Definition is_case_exactly (expr : value) (c : Node) : bool :=
  match c with
  | Elem e => Name_eqb (name e) CASE && strict_eq (get (props e) "c"%string) expr
  | _ => false
  end.

(** The values that are not objects. *)
Definition is_primitive (v : value) : bool :=
  match v with
  | VObj _ _ _ => false
  | _ => true
  end.

(** [null] and [undefined], which [==] holds equal to each other and
    to nothing else. *)
Definition nullish (v : value) : bool :=
  match v with
  | VUndefined | VNull => true
  | _ => false
  end.

(** The values whose conversion to a string throws nothing (any value
    but a symbol and an object whose conversion throws), and the
    property objects that hold no other. *)
Definition converts (v : value) : bool :=
  match to_string v with
  | Ok _ => true
  | Throw _ => false
  end.

Definition converts_all (ps : Props) : bool :=
  forallb (fun kv => converts (snd kv)) ps.



(** The options and the indentation for which [createIndent] throws at
    none of the levels from [n] to [n + h]: without [indent], any.
    With [indent], an [indentString] that is not undefined, a level [n]
    that is not negative, and at the level [n + h] a count for [repeat]
    that is not negative and gives a string that the engine allows: the
    level itself for an [indentString] that is not empty, and otherwise
    its product with [indentSize], when that is neither undefined nor
    zero. *)
Definition indent_ok (options : RenderOptions) (n h : Z) : bool :=
  negb (indent options)
  || match indentString_field options with
     | None => false
     | Some s =>
       if negb (String.eqb s EmptyString)
       then (0 <=? n) && ((n + h) * Z.of_nat (String.length s) <=? max_string_length)
       else match indentSize_field options with
            | None => true
            | Some z =>
              (z =? 0)
              || ((0 <=? n) && (0 <=? (n + h) * z) && ((n + h) * z <=? max_string_length))
            end
     end.

(** Induction on the nodes that render. *)
Section renderable_induction.
Variable P : Node -> Prop.
Hypothesis HText : forall s, P (Text s).
Hypothesis HArr : forall items, Forall P items -> P (Arr items).
Hypothesis HFragment : forall ps ch, Forall P ch -> P (Elem (mkElement Fragment ps ch)).
Hypothesis HHTML : forall ps ch,
  Forall P (head_of ch) -> Forall P (rest_of ch) -> P (Elem (mkElement HTML ps ch)).
Hypothesis HTag : forall tag ps ch,
  converts_all ps = true ->
  Forall P ch -> P (Elem (mkElement (Tag tag) ps ch)).

End renderable_induction.

(** One attribute in the text of a tag. *)
Definition attr (k v : string) : string :=
  (" " +++ k +++ "=" +++ dquote +++ v +++ dquote)%string.

(** The childless element [<img />] and the options that set
    [useSelfCloseTags] only. *)
Definition img : Node := Elem (createElement (Tag "img"%string) None []).

Definition self_close_with (u : SelfCloseTags) : PartialOptions :=
  mkPartial None None None (Some u).

(** ** The renderer of [create]

    [create] and the two functions it returns. *)

(** The list that [create] puts in [useSelfCloseTags], as it is
    written. *)
Definition void_tags : list string :=
  ["area"; "base"; "br"; "col"; "embed"; "hr"; "img"; "input"; "link";
   "input"; "link"; "meta"; "param"; "source"; "track"; "wbr"]%string.

(** [if (options.useSelfCloseTags == null) options.useSelfCloseTags = [...]]:
    the options after the statement. A field that is left out and a
    field that holds [undefined] are both equal to [null]. *)
Definition create_options (options : PartialOptions) : PartialOptions :=
  match p_useSelfCloseTags options with
  | None | Some SCUndefined =>
    mkPartialOptions (p_indent options) (p_indentString options)
                     (p_indentSize options) (Some (SCList void_tags))
  | Some _ => options
  end.

(** [if (top.name != HTML) top = new Element(HTML, {}, [top])]. *)
Definition wrap_HTML (top : Element) : Element :=
  if negb (Name_eqb (name top) HTML) then new_Element HTML [] [Elem top] else top.

(** The function that [create(options)] returns. *)
Definition renderer (options : PartialOptions) (top : Element) : result string :=
  render (Elem (wrap_HTML top)) (create_options options) 0.

(** [typeof v == "number"]. *)
Definition is_number (v : value) : bool :=
  match v with
  | VNum _ | VNaN => true
  | _ => false
  end.

(** The handler that [createHandler(component, status)] returns, as the
    status and the body that it sends; [None] is a status left out.
    The component is called with no children. An exception of the
    rendering leaves the handler before anything is sent. *)
Definition createHandler {Req Res : Type} (options : PartialOptions)
    (component : Req -> Res -> list Node -> Element) (status : option Z)
    (req : Req) (res : Res) : result (value * string) :=
  let element := component req res [] in
  let element := wrap_HTML element in
  let actualStatus :=
    match status with
    | Some s => VNum s
    | None =>
      if is_number (get (props element) "status"%string)
      then get (props element) "status"%string
      else VNum 200
    end in
  body <- renderer options element ;;
  Ok (actualStatus, body).

(** * Vocabulary of the further properties *)

(** A node in which no array and no fragment is empty, at any depth
    below arrays and fragments. *)
Fixpoint solid (c : Node) : bool :=
  match c with
  | Text _ => true
  | Arr items => nonempty items && forallb solid items
  | Elem (mkElement Fragment _ ch) => nonempty ch && forallb solid ch
  | Elem _ => true
  end.

(** [c instanceof Element && c.name == CASE]. *)
Definition is_CASE (c : Node) : bool :=
  match c with
  | Elem e => Name_eqb (name e) CASE
  | _ => false
  end.

(** The keys of every object of properties in the tree are distinct, as
    the keys of an object are. *)
Fixpoint nodupb (l : list string) : bool :=
  match l with
  | [] => true
  | k :: r => negb (existsb (String.eqb k) r) && nodupb r
  end.


(** The text that [createAttrs] gives for keys and the strings of
    their values. *)
Fixpoint attrs_text (ks vs : list string) : string :=
  match ks, vs with
  | k :: ks', v :: vs' => attr k v +++ attrs_text ks' vs'
  | _, _ => EmptyString
  end.





(** * Properties *)

(** ** The examples of the README *)

(** ** The result monad and [mapM] *)

Lemma mapM_cons {A B : Type} (f : A -> result B) (a : A) (l : list A) :
  mapM f (a :: l) = (b <- f a ;; bs <- mapM f l ;; Ok (b :: bs)).
Proof. reflexivity. Qed.

Lemma mapM_Ok {A B : Type} (f : A -> result B) (l : list A) :
  Forall (fun a => exists b, f a = Ok b) l -> exists bs, mapM f l = Ok bs.
Proof.
  induction 1 as [|a l [b Hb] _ [bs IH]].
  - exists []. reflexivity.
  - exists (b :: bs). rewrite mapM_cons, Hb, IH. reflexivity.
Qed.

(** ** [findIndex], [splice] and the two walks *)

Lemma findIndex_range {A : Type} (p : A -> bool) (l : list A) :
  findIndex p l = -1 \/ 0 <= findIndex p l < Z.of_nat (List.length l).
Proof.
  induction l as [|a l IH]; simpl; [left; reflexivity|].
  destruct (p a); [right; lia|].
  destruct (findIndex p l =? -1) eqn:E; [left; reflexivity|].
  apply Z.eqb_neq in E. right. lia.
Qed.

Lemma findIndex_cons_false {A : Type} (p : A -> bool) (a : A) (l : list A) :
  p a = false ->
  findIndex p (a :: l) = if findIndex p l =? -1 then -1 else findIndex p l + 1.
Proof. intros H. simpl. rewrite H. reflexivity. Qed.

(** What [findIndex] returns is the index of the first match: the
    element there matches, and no element before it does. *)
Lemma findIndex_first {A : Type} (p : A -> bool) (l : list A) :
  findIndex p l <> -1 ->
  exists a, nth_error l (Z.to_nat (findIndex p l)) = Some a /\ p a = true /\
            forallb (fun x => negb (p x)) (firstn (Z.to_nat (findIndex p l)) l) = true.
Proof.
  induction l as [|a l IH]; simpl; [congruence|].
  destruct (p a) eqn:Pa.
  - intros _. exists a. simpl. auto.
  - destruct (findIndex p l =? -1) eqn:E; [congruence|]. intros _.
    apply Z.eqb_neq in E. destruct (IH E) as (b & Hn & Hb & Hf).
    destruct (findIndex_range p l) as [|R]; [congruence|].
    replace (Z.to_nat (findIndex p l + 1)) with (S (Z.to_nat (findIndex p l))) by lia.
    exists b. simpl. rewrite Pa. simpl. auto.
Qed.

Lemma findIndex_none {A : Type} (p : A -> bool) (l : list A) :
  findIndex p l = -1 <-> forallb (fun x => negb (p x)) l = true.
Proof.
  induction l as [|a l IH]; simpl; [tauto|].
  destruct (p a); simpl.
  - split; [lia | discriminate].
  - destruct (findIndex_range p l) as [E|R].
    + rewrite E. simpl. tauto.
    + destruct (findIndex p l =? -1) eqn:E; [apply Z.eqb_eq in E; lia|].
      split; [lia|]. intros H. apply IH in H. lia.
Qed.

Lemma is_HEAD_inv (n : Node) :
  is_HEAD n = true -> exists ps hch, n = Elem (mkElement HEAD ps hch).
Proof.
  destruct n as [s|l|[nm ps hch]]; simpl; try discriminate.
  destruct nm; simpl; try discriminate. eauto.
Qed.

Lemma head_of_cons_other (n : Node) (r : list Node) :
  is_HEAD n = false -> head_of (n :: r) = head_of r.
Proof.
  intros H. unfold head_of. rewrite findIndex_cons_false by assumption.
  destruct (findIndex_range is_HEAD r) as [E|R].
  - rewrite E. reflexivity.
  - destruct (findIndex is_HEAD r =? -1) eqn:E; [apply Z.eqb_eq in E; lia|].
    destruct (findIndex is_HEAD r + 1 =? -1) eqn:E'; [apply Z.eqb_eq in E'; lia|].
    unfold children_at.
    replace (Z.to_nat (findIndex is_HEAD r + 1)) with (S (Z.to_nat (findIndex is_HEAD r))) by lia.
    reflexivity.
Qed.

Lemma rest_of_cons_other (n : Node) (r : list Node) :
  is_HEAD n = false -> rest_of (n :: r) = n :: rest_of r.
Proof.
  intros H. unfold rest_of. rewrite findIndex_cons_false by assumption.
  destruct (findIndex_range is_HEAD r) as [E|R].
  - rewrite E. reflexivity.
  - destruct (findIndex is_HEAD r =? -1) eqn:E; [apply Z.eqb_eq in E; lia|].
    destruct (findIndex is_HEAD r + 1 =? -1) eqn:E'; [apply Z.eqb_eq in E'; lia|].
    unfold splice1.
    replace (Z.to_nat (findIndex is_HEAD r + 1)) with (S (Z.to_nat (findIndex is_HEAD r))) by lia.
    reflexivity.
Qed.

Lemma rest_of_cons_head (n : Node) (r : list Node) :
  is_HEAD n = true -> rest_of (n :: r) = r.
Proof. intros H. unfold rest_of. simpl. rewrite H. reflexivity. Qed.

Lemma head_of_cons_head (n : Node) (r : list Node) :
  is_HEAD n = true -> head_of (n :: r) = match n with Elem e => children e | _ => [] end.
Proof. intros H. unfold head_of. simpl. rewrite H. reflexivity. Qed.

Lemma on_first_head_spec {B : Type} (k : list Node -> B) (ch : list Node) :
  on_first_head k (k []) ch = k (head_of ch).
Proof.
  induction ch as [|n r IH]; [reflexivity|].
  destruct (is_HEAD n) eqn:H.
  - destruct (is_HEAD_inv n H) as (ps & hch & ->). reflexivity.
  - rewrite head_of_cons_other by assumption. rewrite <- IH.
    destruct n as [s|l|[nm ps hch]]; try reflexivity.
    destruct nm; try reflexivity. discriminate.
Qed.

Lemma mapM_rest_found {B : Type} (f : Node -> result B) (l : list Node) :
  mapM_rest f l true = mapM f l.
Proof.
  induction l as [|n r IH]; [reflexivity|].
  simpl. rewrite IH. reflexivity.
Qed.

Lemma mapM_rest_spec {B : Type} (f : Node -> result B) (ch : list Node) :
  mapM_rest f ch false = mapM f (rest_of ch).
Proof.
  induction ch as [|n r IH]; [reflexivity|].
  destruct (is_HEAD n) eqn:H.
  - rewrite rest_of_cons_head by assumption.
    simpl. rewrite H. simpl. apply mapM_rest_found.
  - rewrite rest_of_cons_other by assumption.
    simpl. rewrite H. simpl. rewrite IH. reflexivity.
Qed.

(** ** The equation of [renderInternal] *)

Lemma renderInternal_eq (node : Node) (options : RenderOptions) (indentation : Z) :
  renderInternal node options indentation =
  renderInternal_body renderInternal node options indentation.
Proof.
  destruct node as [s|items|[nm ps ch]]; try reflexivity.
  destruct nm; try reflexivity.
  cbn [renderInternal renderInternal_body name props children Name_eqb].
  destruct (createIndent options indentation) as [i|e]; [|reflexivity].
  cbn [bind].
  change (Ok []) with (mapM (fun x => renderInternal x options (indentation + 1)) []) at 1.
  rewrite on_first_head_spec, mapM_rest_spec.
  fold (head_of ch). fold (rest_of ch).
  destruct (mapM (fun x => renderInternal x options (indentation + 1)) (head_of ch));
    reflexivity.
Qed.

(** ** Flattening *)

Lemma flatten1_Arr (items : list Node) : flatten1 (Arr items) = flatten items.
Proof. reflexivity. Qed.

Lemma flatten1_Fragment (ps : Props) (ch : list Node) :
  flatten1 (Elem (mkElement Fragment ps ch)) = flatten ch.
Proof. reflexivity. Qed.

Lemma flatten1_flat (c : Node) : is_flat c = true -> flatten1 c = [c].
Proof.
  destruct c as [s|l|[nm ps ch]]; simpl; try reflexivity; try discriminate.
  destruct nm; simpl; try reflexivity; discriminate.
Qed.

Lemma flatten_app (l1 l2 : list Node) : flatten (l1 ++ l2) = flatten l1 ++ flatten l2.
Proof. apply flat_map_app. Qed.

Lemma flatten_flat (l : list Node) : forallb is_flat l = true -> flatten l = l.
Proof.
  induction l as [|c l IH]; simpl; [reflexivity|].
  intros H. apply andb_prop in H. destruct H as [Hc Hl].
  change (flat_map flatten1 l) with (flatten l).
  rewrite (flatten1_flat c Hc), (IH Hl). reflexivity.
Qed.

Lemma forallb_flat_map {A B : Type} (p : B -> bool) (f : A -> list B) (l : list A) :
  Forall (fun a => forallb p (f a) = true) l -> forallb p (flat_map f l) = true.
Proof.
  induction 1 as [|a l Ha _ IH]; simpl; [reflexivity|].
  rewrite forallb_app, Ha, IH. reflexivity.
Qed.

Lemma flatten1_is_flat (c : Node) : forallb is_flat (flatten1 c) = true.
Proof.
  induction c as [s|items IH|nm ps ch IH] using Node_nested_ind.
  - reflexivity.
  - rewrite flatten1_Arr. apply forallb_flat_map, IH.
  - destruct nm; try reflexivity.
    rewrite flatten1_Fragment. apply forallb_flat_map, IH.
Qed.

Lemma flatten_is_flat (l : list Node) : forallb is_flat (flatten l) = true.
Proof.
  apply forallb_flat_map, Forall_forall. intros c _. apply flatten1_is_flat.
Qed.

Lemma Forall_flat_map {A B : Type} (P : B -> Prop) (f : A -> list B) (l : list A) :
  Forall (fun a => Forall P (f a)) l -> Forall P (flat_map f l).
Proof.
  induction 1 as [|a l Ha _ IH]; simpl; [constructor|].
  apply Forall_app. split; assumption.
Qed.

Lemma Forall_impl_in {A : Type} (P Q : A -> Prop) (l : list A) :
  Forall (fun a => P a -> Q a) l -> Forall P l -> Forall Q l.
Proof.
  induction 1 as [|a l Ha _ IH]; intros H; [constructor|].
  inversion H; subst. constructor; auto.
Qed.

Lemma flatten1_invariant (c : Node) : invariant c -> Forall invariant (flatten1 c).
Proof.
  induction c as [s|items IH|nm ps ch IH] using Node_nested_ind; intros H.
  - repeat constructor.
  - inversion H as [|items' Hall|]; subst.
    rewrite flatten1_Arr. apply Forall_flat_map.
    eapply Forall_impl_in; eassumption.
  - inversion H as [| |nm' ps' ch' Hflat Hall]; subst.
    destruct nm; try (constructor; [assumption|constructor]).
    rewrite flatten1_Fragment. apply Forall_flat_map.
    eapply Forall_impl_in; eassumption.
Qed.

Lemma flatten_invariant (l : list Node) : Forall invariant l -> Forall invariant (flatten l).
Proof.
  intros H. apply Forall_flat_map.
  eapply Forall_impl; [|exact H]. apply flatten1_invariant.
Qed.

Lemma constructed_is_invariant (n : Node) : constructed n -> invariant n.
Proof.
  intros c. induction c as [s|items IH|nm ps childs IH] using constructed_nested_ind.
  - constructor.
  - constructor. assumption.
  - constructor; [apply flatten_is_flat | apply flatten_invariant; assumption].
Qed.

(** C6. Flattening is idempotent: for every list of nodes [L], however
    nested, [flatten (flatten L)] is [flatten L]; and flattening a list
    that is already flat (no array and no fragment among its members)
    returns that list. *)
Theorem flatten_idempotent (L : list Node) :
  flatten (flatten L) = flatten L /\
  (forallb is_flat L = true -> flatten L = L).
Proof.
  split.
  - apply flatten_flat, flatten_is_flat.
  - apply flatten_flat.
Qed.

(** C7. Every element that construction builds satisfies the invariant:
    among its children there is no array and no fragment, and this
    holds of every element of every constructed tree. The children of
    the element that construction builds from a list of children are
    the flattening of that list, and its name and properties are the
    ones given. Flattening splices in place and keeps the order: it
    gives nothing for no child, it distributes over the concatenation
    of child lists, it replaces an array or a fragment by the
    flattening of its members, and it keeps any other child. *)
Theorem construction_invariant :
  (forall n : Node, constructed n -> invariant n) /\
  (forall nm ps childs, forallb is_flat (children (new_Element nm ps childs)) = true) /\
  (forall nm ps childs,
     children (new_Element nm ps childs) = flatten childs /\
     name (new_Element nm ps childs) = nm /\
     props (new_Element nm ps childs) = ps) /\
  flatten [] = [] /\
  (forall l1 l2, flatten (l1 ++ l2) = flatten l1 ++ flatten l2) /\
  (forall items, flatten [Arr items] = flatten items) /\
  (forall ps ch, flatten [Elem (mkElement Fragment ps ch)] = flatten ch) /\
  (forall c, is_flat c = true -> flatten [c] = [c]).
Proof.
  split; [exact constructed_is_invariant|].
  split; [intros; apply flatten_is_flat|].
  split; [intros; repeat split|].
  split; [reflexivity|].
  split; [exact flatten_app|].
  split; [intros; apply app_nil_r|].
  split; [intros; apply app_nil_r|].
  intros c H. apply flatten_flat. simpl. rewrite H. reflexivity.
Qed.


(** ** The document wrapper *)

Lemma append_assoc (a b c : string) : (a +++ b) +++ c = a +++ b +++ c.
Proof.
  induction a as [|x a IH]; simpl; [reflexivity|]. rewrite IH. reflexivity.
Qed.

Lemma renderInternal_HTML (ps : Props) (ch : list Node) (options : RenderOptions) (n : Z) :
  renderInternal (Elem (mkElement HTML ps ch)) options n =
  (indentString <- createIndent options n ;;
   hs <- mapM (fun c => renderInternal c options (n + 1)) (head_of ch) ;;
   bs <- mapM (fun c => renderInternal c options (n + 1)) (rest_of ch) ;;
   Ok (document_text options indentString (head_of ch) (rest_of ch) hs bs)).
Proof.
  rewrite renderInternal_eq.
  cbn [renderInternal_body name props children Name_eqb].
  fold (head_of ch). fold (rest_of ch).
  destruct (createIndent options n) as [i|e]; [|reflexivity].
  cbn [bind]. rewrite renderInternal_eq. cbn [renderInternal_body].
  destruct (mapM (fun c => renderInternal c options (n + 1)) (head_of ch)) as [hs|e];
    [|reflexivity].
  cbn [bind].
  destruct (mapM (fun c => renderInternal c options (n + 1)) (rest_of ch)) as [bs|e];
    [|reflexivity].
  cbn [bind]. f_equal. unfold document_text.
  destruct (nonempty (rest_of ch) && indent options);
    repeat rewrite append_assoc; reflexivity.
Qed.

Lemma head_of_first_head_children (ch : list Node) :
  head_of ch = first_head_children ch.
Proof.
  induction ch as [|c r IH]; [reflexivity|].
  destruct (is_HEAD c) eqn:H.
  - rewrite head_of_cons_head by assumption.
    destruct (is_HEAD_inv c H) as (ps & hch & ->). reflexivity.
  - rewrite head_of_cons_other by assumption. rewrite IH.
    destruct c as [s|l|[nm ps hch]]; try reflexivity.
    destruct nm; try reflexivity. discriminate.
Qed.

Lemma rest_of_without_first_head (ch : list Node) :
  rest_of ch = without_first_head ch.
Proof.
  induction ch as [|c r IH]; [reflexivity|].
  destruct (is_HEAD c) eqn:H.
  - rewrite rest_of_cons_head by assumption.
    destruct (is_HEAD_inv c H) as (ps & hch & ->). reflexivity.
  - rewrite rest_of_cons_other by assumption. rewrite IH.
    destruct c as [s|l|[nm ps hch]]; try reflexivity.
    destruct nm; try reflexivity. discriminate.
Qed.

(** C4. Rendering a document wrapper emits, in this order and each at
    the indentation of the wrapper: the doctype line, the opening
    [html] tag, the opening [head] tag, the children of the first head
    child (nothing when there is none) rendered one level deeper, the
    closing [head] tag, the opening [body] tag, the remaining children
    (the first head child removed) rendered one level deeper, the
    closing [body] tag and the closing [html] tag. *)
Theorem document_rendering (ps : Props) (ch : list Node) (options : RenderOptions) (n : Z) :
  renderInternal (Elem (mkElement HTML ps ch)) options n =
  (indentString <- createIndent options n ;;
   hs <- mapM (fun c => renderInternal c options (n + 1)) (first_head_children ch) ;;
   bs <- mapM (fun c => renderInternal c options (n + 1)) (without_first_head ch) ;;
   Ok (indentString +++ "<!DOCTYPE html>" +++ nl options +++
       indentString +++ "<html>" +++ nl options +++
       indentString +++ "<head>" +++ nl options +++
       join (nl options) hs +++
       (if indent options && nonempty (first_head_children ch)
        then newline else EmptyString) +++
       indentString +++ "</head>" +++ nl options +++
       indentString +++ "<body>" +++ nl options +++
       join (nl options) bs +++
       (if nonempty (without_first_head ch) && indent options
        then newline else EmptyString) +++
       indentString +++ "</body>" +++ nl options +++
       indentString +++ "</html>")%string).
Proof.
  rewrite renderInternal_HTML, head_of_first_head_children, rest_of_without_first_head.
  reflexivity.
Qed.

(** C10. Rendering a document wrapper does not look at the properties
    of the wrapper: two documents with the same children render alike
    whatever their properties are, also when built by [HtmlPage], and
    the text of a rendered document starts with the doctype line and
    the opening tag [<html>], which carries no attribute. *)
Theorem document_props_ignored (ps1 ps2 : Props) (ch : list Node)
    (options : RenderOptions) (n : Z) :
  renderInternal (Elem (mkElement HTML ps1 ch)) options n =
  renderInternal (Elem (mkElement HTML ps2 ch)) options n /\
  renderInternal (Elem (HtmlPage ps1 ch)) options n =
  renderInternal (Elem (HtmlPage ps2 ch)) options n /\
  (forall s, renderInternal (Elem (mkElement HTML ps1 ch)) options n = Ok s ->
     exists indentString rest,
       createIndent options n = Ok indentString /\
       s = (indentString +++ "<!DOCTYPE html>" +++ nl options +++
            indentString +++ "<html>" +++ nl options +++
            indentString +++ "<head>" +++ rest)%string).
Proof.
  split; [rewrite !renderInternal_HTML; reflexivity|].
  split; [unfold HtmlPage, new_Element; rewrite !renderInternal_HTML; reflexivity|].
  intros s. rewrite renderInternal_HTML.
  destruct (createIndent options n) as [i|e]; [|discriminate]. cbn [bind].
  destruct (mapM _ (head_of ch)) as [hs|e]; [|discriminate]. cbn [bind].
  destruct (mapM _ (rest_of ch)) as [bs|e]; [|discriminate]. cbn [bind].
  intros H. inversion H. exists i. eexists. split; [reflexivity|].
  unfold document_text. reflexivity.
Qed.

(** ** Switch *)

Lemma find_first {A : Type} (p : A -> bool) (l : list A) (i : nat) (a : A) :
  nth_error l i = Some a -> p a = true ->
  forallb (fun x => negb (p x)) (firstn i l) = true ->
  find p l = Some a.
Proof.
  revert i. induction l as [|x l IH]; intros [|i] Hn Ha Hf; simpl in *; try discriminate.
  - inversion Hn; subst. rewrite Ha. reflexivity.
  - apply andb_prop in Hf. destruct Hf as [Hx Hf].
    apply negb_true_iff in Hx. rewrite Hx. eapply IH; eassumption.
Qed.

Lemma find_none {A : Type} (p : A -> bool) (l : list A) :
  forallb (fun x => negb (p x)) l = true -> find p l = None.
Proof.
  induction l as [|x l IH]; simpl; [reflexivity|].
  intros H. apply andb_prop in H. destruct H as [Hx Hl].
  apply negb_true_iff in Hx. rewrite Hx. auto.
Qed.

(** C5, as the code has it. [Switch] returns a fragment of the children
    of the first case child, in the order of the children, whose case
    value is equal to the scrutinee for the operator [==], which
    converts between types; when no case child matches in that sense,
    a fragment of the children of the first default child;
    and when there is no default child either, the empty fragment,
    which renders to the empty string. The fragment holds the children
    as they are when they are flat, as those of a constructed element
    are. *)
Theorem Switch_resolution (expr : value) (childs : list Node) :
  (forall i found,
     nth_error childs i = Some (Elem found) ->
     name found = CASE ->
     loose_eq (get (props found) "c"%string) expr = true ->
     forallb (fun c => negb (is_case_of expr c)) (firstn i childs) = true ->
     Switch expr childs = new_Element Fragment [] (children found) /\
     (forallb is_flat (children found) = true ->
      Switch expr childs = mkElement Fragment [] (children found))) /\
  (forall i def,
     forallb (fun c => negb (is_case_of expr c)) childs = true ->
     nth_error childs i = Some (Elem def) ->
     name def = DEFAULT ->
     forallb (fun c => negb (is_DEFAULT c)) (firstn i childs) = true ->
     Switch expr childs = new_Element Fragment [] (children def) /\
     (forallb is_flat (children def) = true ->
      Switch expr childs = mkElement Fragment [] (children def))) /\
  (forallb (fun c => negb (is_case_of expr c)) childs = true ->
   forallb (fun c => negb (is_DEFAULT c)) childs = true ->
   Switch expr childs = mkElement Fragment [] [] /\
   forall options n, renderInternal (Elem (Switch expr childs)) options n = Ok EmptyString).
Proof.
  split; [|split].
  - intros i found Hn Hname Heq Hf.
    assert (E : Switch expr childs = new_Element Fragment [] (children found)).
    { unfold Switch. rewrite (find_first _ _ i (Elem found)); auto.
      simpl. rewrite Hname, Heq. reflexivity. }
    split; [exact E|].
    intros Hflat. rewrite E. unfold new_Element. rewrite flatten_flat; auto.
  - intros i def Hnone Hn Hname Hf.
    assert (E : Switch expr childs = new_Element Fragment [] (children def)).
    { unfold Switch. rewrite find_none by assumption.
      rewrite (find_first _ _ i (Elem def)); auto.
      simpl. rewrite Hname. reflexivity. }
    split; [exact E|].
    intros Hflat. rewrite E. unfold new_Element. rewrite flatten_flat; auto.
  - intros Hc Hd. unfold Switch. rewrite !find_none by assumption.
    split; reflexivity.
Qed.

Lemma number_eqb_eq (x y : number) : number_eqb x y = true -> x = y.
Proof.
  destruct x, y; simpl; try discriminate.
  - intros H. apply Bool.eqb_prop in H. congruence.
  - intros H. apply Z.eqb_eq in H. congruence.
Qed.

Lemma number_eqb_NaN_r (x : number) : number_eqb x NNaN = false.
Proof. destruct x; reflexivity. Qed.

Lemma round_div_1 (x : Z) : round_div x 1 = x.
Proof.
  unfold round_div. rewrite Z.mod_1_r, Z.div_1_r. reflexivity.
Qed.

(** The number of an integer literal is an integer or an infinity. *)
Lemma round_ratio_integer (a : Z) :
  (exists z, round_ratio a 1 = NInt z) \/ round_ratio a 1 = NInf false.
Proof.
  unfold round_ratio. destruct (a =? 0); [left; eauto|].
  set (e := Z.max (log2_ratio a 1 - 52) (-1074)).
  destruct (0 <=? e) eqn:E.
  - destruct (2 ^ 1024 <=? _); [right; reflexivity | left; eauto].
  - apply Z.leb_gt in E. rewrite round_div_1.
    assert (P : 2 ^ (- e) <> 0) by (apply Z.pow_nonzero; lia).
    rewrite Z.mod_mul by exact P. simpl. left. eauto.
Qed.

Lemma number_of_Z_refl (z : Z) : number_eqb (number_of_Z z) (number_of_Z z) = true.
Proof.
  unfold number_of_Z. destruct (z <? 0).
  - destruct (round_ratio_integer (- z)) as [[y ->]| ->]; simpl;
      [apply Z.eqb_refl | reflexivity].
  - destruct (round_ratio_integer z) as [[y ->]| ->]; simpl;
      [apply Z.eqb_refl | reflexivity].
Qed.

Lemma loose_eq_same_type (x y : value) :
  type_of x = type_of y -> loose_eq x y = strict_eq x y.
Proof. destruct x, y; simpl; try discriminate; reflexivity. Qed.

Lemma strict_eq_spec (x y : value) : strict_eq x y = true <-> same_value x y.
Proof.
  destruct x, y; simpl; split; try discriminate; try tauto; try congruence;
    try (intros _; reflexivity).
  - intros H. apply Bool.eqb_prop in H. congruence.
  - intros E. inversion E. apply Bool.eqb_reflx.
  - apply number_eqb_eq.
  - intros ->. apply number_of_Z_refl.
  - intros H. apply String.eqb_eq in H. congruence.
  - intros E. inversion E. apply String.eqb_refl.
  - intros H. apply Nat.eqb_eq in H. congruence.
  - intros E. inversion E. apply Nat.eqb_refl.
  - apply Nat.eqb_eq.
  - apply Nat.eqb_eq.
Qed.

Lemma loose_eq_other_type (x y : value) :
  is_primitive x = true -> is_primitive y = true ->
  type_of x <> type_of y ->
  (loose_eq x y = true <->
   (nullish x = true /\ nullish y = true) \/
   number_eqb (numeric_view x) (numeric_view y) = true).
Proof.
  intros Px Py T.
  destruct x, y; simpl in *; try congruence; try discriminate;
    try rewrite number_eqb_NaN_r;
    (split;
     [ try discriminate; try (intros _; left; split; reflexivity);
       try (intros H; right; exact H)
     | intros [[H1 H2]|H]; try discriminate; try reflexivity; try exact H ]).
Qed.

Lemma vtype_eqb_eq (a b : vtype) : vtype_eqb a b = true <-> a = b.
Proof. destruct a, b; simpl; split; congruence. Qed.

Lemma vtype_eqb_neq (a b : vtype) : vtype_eqb a b = false <-> a <> b.
Proof. destruct a, b; simpl; split; congruence. Qed.

Lemma is_case_of_Case (expr c : value) (childs : list Node) :
  is_case_of expr (Elem (Case c childs)) = loose_eq c expr.
Proof. reflexivity. Qed.

Lemma find_app {A : Type} (p : A -> bool) (l1 l2 : list A) :
  find p (l1 ++ l2) = match find p l1 with
                      | Some a => Some a
                      | None => find p l2
                      end.
Proof.
  induction l1 as [|x l1 IH]; simpl; [reflexivity|].
  destruct (p x); [reflexivity | exact IH].
Qed.

Lemma Switch_at_case (expr c : value) (childs before rest : list Node) :
  forallb (fun x => negb (is_case_of expr x)) before = true ->
  Switch expr (before ++ Elem (Case c childs) :: rest) =
  if loose_eq c expr then new_Element Fragment [] (children (Case c childs))
  else Switch expr (before ++ rest).
Proof.
  intros B. unfold Switch. rewrite !find_app.
  rewrite (find_none (is_case_of expr) before B).
  cbn [find]. rewrite is_case_of_Case.
  destruct (loose_eq c expr); [reflexivity|].
  change (is_DEFAULT (Elem (Case c childs))) with false. cbn iota. reflexivity.
Qed.

(** C2, as the code has it. [Switch] matches a case against the
    scrutinee with the operator [==]: a case that no matching case
    precedes gives the result when its value is equal to the scrutinee
    for [==], and is passed over when it is not, the switch resolving
    as without it. Case value and scrutinee of one type match exactly
    when they are the same value, as for [===] ([NaN] matches nothing,
    two objects match when they are one object). Case value and
    scrutinee of two types can match: among primitives, [null] and
    [undefined] match each other, and booleans, numbers and strings
    match when they convert to the same number, as the string "2" and
    the number 2 do; an object matches neither [null] nor [undefined],
    and is compared with any other primitive through the primitive
    that it converts to. *)
Theorem Switch_case_equality (expr c : value) (childs before rest : list Node) :
  (forallb (fun x => negb (is_case_of expr x)) before = true ->
   Switch expr (before ++ Elem (Case c childs) :: rest) =
   (if loose_eq c expr then new_Element Fragment [] (children (Case c childs))
    else Switch expr (before ++ rest))) /\
  (vtype_eqb (type_of c) (type_of expr) = true ->
   (loose_eq c expr = true <-> same_value c expr)) /\
  (is_primitive c = true -> is_primitive expr = true ->
   vtype_eqb (type_of c) (type_of expr) = false ->
   (loose_eq c expr = true <->
    (nullish c = true /\ nullish expr = true) \/
    number_eqb (numeric_view c) (numeric_view expr) = true)) /\
  (forall id prim str,
     c = VObj id prim str -> is_primitive expr = true ->
     loose_eq c expr =
     if nullish expr then false else loose_eq (of_primitive prim) expr) /\
  (forall id prim str,
     expr = VObj id prim str -> is_primitive c = true ->
     loose_eq c expr =
     if nullish c then false else loose_eq c (of_primitive prim)).
Proof.
  split; [apply Switch_at_case|]. split; [|split; [|split]].
  - intros T. apply vtype_eqb_eq in T.
    rewrite loose_eq_same_type by assumption. apply strict_eq_spec.
  - intros Pc Pe T. apply vtype_eqb_neq in T. apply loose_eq_other_type; assumption.
  - intros id prim str -> Pe.
    destruct expr; try discriminate; destruct prim; reflexivity.
  - intros id prim str -> Pc.
    destruct c; try discriminate; destruct prim; reflexivity.
Qed.

(** ** Induction that reaches the head content of a document *)

Lemma rest_of_incl (ch : list Node) (c : Node) : In c (rest_of ch) -> In c ch.
Proof.
  rewrite rest_of_without_first_head.
  induction ch as [|x r IH]; simpl; [tauto|].
  destruct x as [s|l|[nm ps hch]]; try (intros [E|H]; auto).
  destruct nm; try (intros [E|H]; auto). intros H. auto.
Qed.

Lemma head_of_from_child (ch : list Node) :
  head_of ch = [] \/ exists ps, In (Elem (mkElement HEAD ps (head_of ch))) ch.
Proof.
  rewrite head_of_first_head_children.
  induction ch as [|x r IH]; simpl; [left; reflexivity|].
  assert (K : first_head_children r = [] \/
              exists ps, x = Elem (mkElement HEAD ps (first_head_children r)) \/
                         In (Elem (mkElement HEAD ps (first_head_children r))) r).
  { destruct IH as [E|[ps' H]]; [left; exact E | right; exists ps'; right; exact H]. }
  destruct x as [s|l|[nm ps hch]]; try exact K.
  destruct nm; try exact K.
  right. exists ps. left. reflexivity.
Qed.

Lemma Node_deep_ind (P : Node -> Prop) :
  (forall s, P (Text s)) ->
  (forall items, Forall P items -> P (Arr items)) ->
  (forall nm ps ch, Forall P ch -> Forall P (head_of ch) -> P (Elem (mkElement nm ps ch))) ->
  forall n, P n.
Proof.
  intros HText HArr HElem.
  assert (Q : forall n, P n /\ (forall e, n = Elem e -> Forall P (children e))).
  { induction n as [s|items IH|nm ps ch IH] using Node_nested_ind.
    - split; [apply HText | discriminate].
    - split; [|discriminate].
      apply HArr. eapply Forall_impl; [|exact IH]. intros a [H _]. exact H.
    - assert (Hch : Forall P ch).
      { eapply Forall_impl; [|exact IH]. intros a [H _]. exact H. }
      split; [|intros e E; inversion E; subst; exact Hch].
      apply HElem; [exact Hch|].
      destruct (head_of_from_child ch) as [E|[ps' Hin]]; [rewrite E; constructor|].
      rewrite Forall_forall in IH. destruct (IH _ Hin) as [_ H].
      exact (H _ eq_refl). }
  intros n. apply Q.
Qed.

(** ** Totality of rendering *)

Lemma max_string_length_nonneg : 0 <= max_string_length.
Proof. apply max_string_length_range. Qed.

Lemma repeat_Ok (s : string) (count : Z) :
  0 <= count -> count * Z.of_nat (String.length s) <= max_string_length ->
  exists r, repeat s count = Ok r.
Proof.
  intros H M. unfold repeat.
  destruct (count <? 0) eqn:E; [apply Z.ltb_lt in E; lia|].
  destruct (max_string_length <? count * Z.of_nat (String.length s)) eqn:E';
    [apply Z.ltb_lt in E'; lia|].
  eauto.
Qed.

Lemma repeat_zero (s : string) : repeat s 0 = Ok EmptyString.
Proof.
  unfold repeat. cbn [Z.ltb Z.compare Z.mul].
  pose proof max_string_length_nonneg as M.
  destruct (max_string_length <? 0) eqn:E; [apply Z.ltb_lt in E; lia | reflexivity].
Qed.

(** At the level 0, [createIndent] gives the empty string when it
    gives a string. *)
Lemma createIndent_zero (options : RenderOptions) (s : string) :
  createIndent options 0 = Ok s -> s = EmptyString.
Proof.
  unfold createIndent.
  destruct (indent options); cbn [negb]; [|congruence].
  destruct (indentString_field options) as [t|]; [|discriminate].
  destruct (negb (String.eqb t EmptyString)); [rewrite repeat_zero; congruence|].
  destruct (indentSize_field options) as [z|]; [|congruence].
  destruct (negb (z =? 0)); [|congruence].
  cbn [Z.mul]. rewrite repeat_zero. congruence.
Qed.







(** What holds for the levels up to [n + h] holds for the levels up to
    [n + k + h'] when that is not beyond. *)
Lemma indent_ok_below (options : RenderOptions) (n h k h' : Z) :
  indent_ok options n h = true -> 0 <= k -> 0 <= h' -> k + h' <= h ->
  indent_ok options (n + k) h' = true.
Proof.
  unfold indent_ok. intros H K H' L.
  destruct (indent options); [|reflexivity]. cbn [negb orb] in *.
  destruct (indentString_field options) as [s|]; [|discriminate].
  destruct (negb (String.eqb s EmptyString)).
  - apply andb_prop in H. destruct H as [H1 H2].
    apply Z.leb_le in H1. apply Z.leb_le in H2.
    apply andb_true_intro. split; apply Z.leb_le; [lia|].
    pose proof (Nat2Z.is_nonneg (String.length s)).
    assert ((n + k + h') * Z.of_nat (String.length s)
            <= (n + h) * Z.of_nat (String.length s))
      by (apply Z.mul_le_mono_nonneg_r; lia).
    lia.
  - destruct (indentSize_field options) as [z|]; [|reflexivity].
    destruct (z =? 0); [reflexivity|]. cbn [orb] in *.
    apply andb_prop in H. destruct H as [H H3]. apply andb_prop in H. destruct H as [H1 H2].
    apply Z.leb_le in H1. apply Z.leb_le in H2. apply Z.leb_le in H3.
    assert (B : 0 <= (n + k + h') * z <= (n + h) * z).
    { destruct (Z.lt_trichotomy z 0) as [Z|[Z|Z]].
      - assert (n + h = 0) by nia. assert (E : n + k + h' = 0) by lia.
        rewrite E. lia.
      - subst z. lia.
      - split; [apply Z.mul_nonneg_nonneg; lia|].
        apply Z.mul_le_mono_nonneg_r; lia. }
    repeat (apply andb_true_intro; split); apply Z.leb_le; lia.
Qed.

Lemma createIndent_Ok (options : RenderOptions) (n h : Z) :
  indent_ok options n h = true -> 0 <= h -> exists s, createIndent options n = Ok s.
Proof.
  intros H Hh.
  assert (H0 : indent_ok options (n + 0) 0 = true)
    by (apply (indent_ok_below options n h 0 0); [exact H | lia | lia | lia]).
  clear H. replace (n + 0) with n in H0 by lia. revert H0.
  unfold indent_ok, createIndent.
  destruct (indent options); [|intros _; exists EmptyString; reflexivity]. cbn [negb orb].
  destruct (indentString_field options) as [s|]; [|discriminate].
  destruct (negb (String.eqb s EmptyString)).
  - rewrite Z.add_0_r. intros H. apply andb_prop in H. destruct H as [H1 H2].
    apply Z.leb_le in H1. apply Z.leb_le in H2.
    apply repeat_Ok; assumption.
  - destruct (indentSize_field options) as [z|]; [|eauto].
    destruct (z =? 0); cbn [negb orb]; [eauto|].
    rewrite Z.add_0_r. intros H. apply andb_prop in H. destruct H as [H H3].
    apply andb_prop in H. destruct H as [H1 H2].
    apply Z.leb_le in H2. apply Z.leb_le in H3.
    apply repeat_Ok; [exact H2 | simpl; lia].
Qed.

Lemma get_converts (ps : Props) (k : string) :
  converts_all ps = true -> converts (get ps k) = true.
Proof.
  induction ps as [|[k' v] r IH]; simpl; [reflexivity|].
  intros H. apply andb_prop in H. destruct H as [Hv Hr].
  destruct (String.eqb k' k); auto.
Qed.

Lemma set_converts (ps : Props) (k : string) (v : value) :
  converts_all ps = true -> converts v = true -> converts_all (set ps k v) = true.
Proof.
  intros H Hv. induction ps as [|[k' v'] r IH]; simpl in *.
  - rewrite Hv. reflexivity.
  - apply andb_prop in H. destruct H as [Hv' Hr].
    destruct (String.eqb k' k); simpl.
    + rewrite Hv, Hr. reflexivity.
    + rewrite Hv', IH by assumption. reflexivity.
Qed.

Lemma alias_class_converts (ps : Props) :
  converts_all ps = true -> converts_all (alias_class ps) = true.
Proof.
  intros H. unfold alias_class.
  destruct (truthy (get ps "className"%string) && negb (truthy (get ps "class"%string)));
    [|assumption].
  apply set_converts; [assumption | apply get_converts; assumption].
Qed.

Lemma to_string_Ok (v : value) : converts v = true -> exists s, to_string v = Ok s.
Proof. unfold converts. destruct (to_string v); [eauto | discriminate]. Qed.

Lemma createAttrs_Ok (ps : Props) :
  converts_all ps = true -> exists s, createAttrs ps = Ok s.
Proof.
  intros H. unfold createAttrs.
  destruct (mapM_Ok
    (fun k => v <- to_string (get ps k) ;;
              Ok (" " +++ k +++ "=" +++ dquote +++ v +++ dquote)%string)
    (keys ps)) as [attrs E].
  - apply Forall_forall. intros k _.
    destruct (to_string_Ok (get ps k) (get_converts ps k H)) as [s Hs].
    rewrite Hs. simpl. eauto.
  - rewrite E. simpl. eauto.
Qed.





(** An element named by [CASE], [DEFAULT] or [HEAD] that reaches the
    last branch of [renderInternal] throws a [TypeError]: its name does
    not convert to a string. *)
Lemma reserved_name_throws (nm : Name) (ps : Props) (ch : list Node)
    (options : RenderOptions) (n : Z) :
  nm = CASE \/ nm = DEFAULT \/ nm = HEAD ->
  converts_all ps = true -> indent_ok options n 0 = true ->
  renderInternal (Elem (mkElement nm ps ch)) options n = Throw TypeError.
Proof.
  intros Hnm Hs Hn. rewrite renderInternal_eq.
  destruct Hnm as [->|[->| ->]];
    cbn [renderInternal_body name props children Name_eqb];
    destruct (createAttrs_Ok (alias_class ps) (alias_class_converts ps Hs)) as [attrs ->];
    destruct (createIndent_Ok options n 0 Hn ltac:(lia)) as [i ->]; reflexivity.
Qed.

Lemma get_set_same (ps : Props) (k : string) (v : value) : get (set ps k v) k = v.
Proof.
  induction ps as [|[k0 v0] r IH]; simpl.
  - rewrite String.eqb_refl. reflexivity.
  - destruct (String.eqb k0 k) eqn:E; simpl; rewrite E; auto.
Qed.

Lemma get_set_other (ps : Props) (k k' : string) (v : value) :
  String.eqb k k' = false -> get (set ps k v) k' = get ps k'.
Proof.
  intros N. induction ps as [|[k0 v0] r IH]; simpl.
  - rewrite N. reflexivity.
  - destruct (String.eqb k0 k) eqn:E; simpl.
    + apply String.eqb_eq in E. subst k0. rewrite N. reflexivity.
    + rewrite IH. reflexivity.
Qed.

(** The write of [class] happens once: on the properties it has
    produced, the statement changes nothing. *)
Lemma alias_class_idempotent (ps : Props) : alias_class (alias_class ps) = alias_class ps.
Proof.
  unfold alias_class at 2.
  destruct (truthy (get ps "className"%string) && negb (truthy (get ps "class"%string)))
    eqn:C.
  - apply andb_prop in C. destruct C as [C1 C2].
    unfold alias_class. rewrite get_set_other by reflexivity.
    rewrite get_set_same, C1, C2. reflexivity.
  - unfold alias_class. rewrite C. reflexivity.
Qed.

Lemma set_keeps_keys (ps : Props) (k k' : string) (v : value) :
  In k' (keys ps) -> In k' (keys (set ps k v)).
Proof.
  induction ps as [|[k0 v0] r IH]; simpl; [tauto|].
  intros [E|H]; destruct (String.eqb k0 k); simpl; auto.
Qed.

(** The property [className] stays in the object that [createAttrs]
    receives. *)
Lemma alias_class_keeps_className (ps : Props) :
  In "className"%string (keys ps) -> In "className"%string (keys (alias_class ps)).
Proof.
  intros H. unfold alias_class.
  destruct (truthy (get ps "className"%string) && negb (truthy (get ps "class"%string)));
    [apply set_keeps_keys|]; assumption.
Qed.

(** C1, at the inputs where the code departs from it. An element with
    the property [className] and without [class] renders the attribute
    [class] with the value of [className], and it renders the attribute
    [className] as well; with both properties, [class] keeps its value
    and is rendered once, and [className] is rendered too. *)
Theorem className_is_rendered :
  render (Elem (createElement (Tag "div"%string)
                  (Some [("className"%string, VStr "x"%string)]) []))
         no_options 0
  = Ok ("<div" +++ attr "className" "x" +++ attr "class" "x" +++ " />")%string /\
  render (Elem (createElement (Tag "div"%string)
                  (Some [("className"%string, VStr "a"%string);
                         ("class"%string, VStr "b"%string)]) []))
         no_options 0
  = Ok ("<div" +++ attr "className" "a" +++ attr "class" "b" +++ " />")%string.
Proof. split; reflexivity. Qed.

(** C9, at the input where the code departs from it. Under the list
    ["1"], which does not contain the name [img], a childless [img]
    element renders self-closing, as the list is equal to [true] for
    the operator [==]. The four cases of the specification (true, the list
    with [img], false, the list with [br]) render as it says. *)
Theorem selfClose_list_equal_to_true :
  existsb (String.eqb "img"%string) ["1"%string] = false /\
  render img (self_close_with (SCList ["1"%string])) 0 = Ok "<img />"%string /\
  render img (self_close_with (SCBool true)) 0 = Ok "<img />"%string /\
  render img (self_close_with (SCList ["img"%string])) 0 = Ok "<img />"%string /\
  render img (self_close_with (SCBool false)) 0 = Ok "<img></img>"%string /\
  render img (self_close_with (SCList ["br"%string])) 0 = Ok "<img></img>"%string.
Proof. repeat split; reflexivity. Qed.

(** * Further properties of the code *)

(** ** Rendering lists of nodes *)

Lemma append_nil_r (s : string) : s +++ EmptyString = s.
Proof. induction s as [|c s IH]; simpl; [reflexivity|]. rewrite IH. reflexivity. Qed.

Lemma join_cons_nonempty (sep s : string) (l : list string) :
  l <> [] -> join sep (s :: l) = s +++ sep +++ join sep l.
Proof. destruct l; [congruence | reflexivity]. Qed.

Lemma join_cons_nosep (s : string) (l : list string) :
  join EmptyString (s :: l) = s +++ join EmptyString l.
Proof. destruct l; simpl; [rewrite append_nil_r|]; reflexivity. Qed.

Lemma join_app (sep : string) (l1 l2 : list string) :
  sep = EmptyString \/ (l1 <> [] /\ l2 <> []) ->
  join sep (l1 ++ l2) = join sep l1 +++ sep +++ join sep l2.
Proof.
  intros [->|[H1 H2]].
  - induction l1 as [|a l1 IH]; [reflexivity|].
    change ((a :: l1) ++ l2) with (a :: (l1 ++ l2)).
    rewrite !join_cons_nosep, IH. simpl. rewrite append_assoc. reflexivity.
  - induction l1 as [|a l1 IH]; [congruence|].
    change ((a :: l1) ++ l2) with (a :: (l1 ++ l2)).
    rewrite join_cons_nonempty by (destruct l1; simpl; [assumption|discriminate]).
    destruct l1 as [|b l1].
    + reflexivity.
    + rewrite IH by discriminate.
      rewrite (join_cons_nonempty sep a (b :: l1)) by discriminate.
      rewrite !append_assoc. reflexivity.
Qed.

Lemma mapM_app {A B : Type} (f : A -> result B) (l1 l2 : list A) :
  mapM f (l1 ++ l2) = (r1 <- mapM f l1 ;; r2 <- mapM f l2 ;; Ok (r1 ++ r2)).
Proof.
  induction l1 as [|a l1 IH].
  - simpl. destruct (mapM f l2); reflexivity.
  - change ((a :: l1) ++ l2) with (a :: (l1 ++ l2)).
    rewrite !mapM_cons, IH.
    destruct (f a); [|reflexivity]. simpl.
    destruct (mapM f l1); [|reflexivity]. simpl.
    destruct (mapM f l2); reflexivity.
Qed.

Lemma mapM_nonempty {A B : Type} (f : A -> result B) (l : list A) (bs : list B) :
  mapM f l = Ok bs -> l <> [] -> bs <> [].
Proof.
  destruct l as [|a l]; [congruence|]. rewrite mapM_cons.
  destruct (f a); [|discriminate]. simpl.
  destruct (mapM f l); [|discriminate]. simpl.
  intros H _. inversion H. discriminate.
Qed.

Lemma renderInternal_Arr (items : list Node) (options : RenderOptions) (n : Z) :
  renderInternal (Arr items) options n =
  (rs <- mapM (fun c => renderInternal c options n) items ;; Ok (join (nl options) rs)).
Proof. reflexivity. Qed.

Lemma renderInternal_Fragment (ps : Props) (ch : list Node) (options : RenderOptions) (n : Z) :
  renderInternal (Elem (mkElement Fragment ps ch)) options n = renderInternal (Arr ch) options n.
Proof. reflexivity. Qed.

Lemma nl_off (options : RenderOptions) : indent options = false -> nl options = EmptyString.
Proof. unfold nl. intros ->. reflexivity. Qed.

Lemma render_app (l1 l2 : list Node) (options : RenderOptions) (n : Z) :
  indent options = false \/ (l1 <> [] /\ l2 <> []) ->
  renderInternal (Arr (l1 ++ l2)) options n =
  (a <- renderInternal (Arr l1) options n ;;
   b <- renderInternal (Arr l2) options n ;;
   Ok (a +++ nl options +++ b)).
Proof.
  intros H. rewrite !renderInternal_Arr, mapM_app.
  destruct (mapM (fun c => renderInternal c options n) l1) as [r1|e] eqn:E1; [|reflexivity].
  destruct (mapM (fun c => renderInternal c options n) l2) as [r2|e] eqn:E2; [|reflexivity].
  cbn [bind]. f_equal. apply join_app.
  destruct H as [H|[H1 H2]]; [left; apply nl_off; assumption|].
  right. split; eapply mapM_nonempty; eassumption.
Qed.

(** X1. Rendering composes over the concatenation of two lists of
    nodes: the two renderings are joined by the separator, when
    [indent] is off or none of the two lists is empty; the first
    exception, from left to right, is the exception of the whole. *)
Theorem render_concatenation (l1 l2 : list Node) (options : RenderOptions) (n : Z) :
  indent options = false \/ (l1 <> [] /\ l2 <> []) ->
  renderInternal (Arr (l1 ++ l2)) options n =
  (a <- renderInternal (Arr l1) options n ;;
   b <- renderInternal (Arr l2) options n ;;
   Ok (a +++ nl options +++ b)).
Proof.
  intros H. rewrite !renderInternal_Arr, mapM_app.
  destruct (mapM (fun c => renderInternal c options n) l1) as [r1|e] eqn:E1; [|reflexivity].
  destruct (mapM (fun c => renderInternal c options n) l2) as [r2|e] eqn:E2; [|reflexivity].
  cbn [bind]. f_equal. apply join_app.
  destruct H as [H|[H1 H2]]; [left; apply nl_off; assumption|].
  right. split; eapply mapM_nonempty; eassumption.
Qed.

(** ** Flattening and rendering *)

Lemma render_singleton (c : Node) (options : RenderOptions) (n : Z) :
  renderInternal (Arr [c]) options n = renderInternal c options n.
Proof.
  rewrite renderInternal_Arr, mapM_cons.
  destruct (renderInternal c options n); reflexivity.
Qed.

Lemma render_cons (c : Node) (r : list Node) (options : RenderOptions) (n : Z) :
  indent options = false \/ r <> [] ->
  renderInternal (Arr (c :: r)) options n =
  (a <- renderInternal c options n ;;
   b <- renderInternal (Arr r) options n ;;
   Ok (a +++ nl options +++ b)).
Proof.
  intros H. change (c :: r) with ([c] ++ r).
  rewrite render_app, render_singleton; [reflexivity|].
  destruct H as [H|H]; [left; exact H | right; split; [discriminate | exact H]].
Qed.

Lemma flat_map_nonempty {A B : Type} (f : A -> list B) (l : list A) :
  l <> [] -> Forall (fun a => f a <> []) l -> flat_map f l <> [].
Proof.
  destruct l as [|a l]; [congruence|]. intros _ H.
  inversion H as [|a' l' Ha Hl]; subst. simpl.
  destruct (f a) eqn:E; [exfalso; apply Ha; reflexivity | discriminate].
Qed.

Lemma nonempty_true {A : Type} (l : list A) : nonempty l = true <-> l <> [].
Proof.
  destruct l; simpl; split; intros H; try discriminate; try reflexivity.
  exfalso. apply H. reflexivity.
Qed.

Lemma solid_flatten1_nonempty (c : Node) : solid c = true -> flatten1 c <> [].
Proof.
  induction c as [s|items IH|nm ps ch IH] using Node_nested_ind; intros H.
  - discriminate.
  - rewrite flatten1_Arr. simpl in H. apply andb_prop in H. destruct H as [H1 H2].
    apply flat_map_nonempty; [apply nonempty_true; exact H1|].
    rewrite forallb_forall in H2. rewrite Forall_forall in *. auto.
  - destruct nm; try discriminate.
    rewrite flatten1_Fragment. simpl in H. apply andb_prop in H. destruct H as [H1 H2].
    apply flat_map_nonempty; [apply nonempty_true; exact H1|].
    rewrite forallb_forall in H2. rewrite Forall_forall in *. auto.
Qed.

Lemma render_flat_map (items : list Node) (options : RenderOptions) (n : Z) :
  Forall (fun x => renderInternal (Arr (flatten1 x)) options n = renderInternal x options n)
         items ->
  indent options = false \/ Forall (fun x => flatten1 x <> []) items ->
  renderInternal (Arr (flatten items)) options n = renderInternal (Arr items) options n.
Proof.
  intros H C. induction H as [|x r Hx Hr IH]; [reflexivity|].
  change (flatten (x :: r)) with (flatten1 x ++ flatten r).
  assert (C' : indent options = false \/ Forall (fun x => flatten1 x <> []) r).
  { destruct C as [C|C]; [left; exact C | right; inversion C; assumption]. }
  specialize (IH C').
  destruct r as [|y r].
  - change (flatten []) with (@nil Node).
    rewrite app_nil_r, Hx. symmetry. apply render_singleton.
  - rewrite render_app, render_cons, Hx, IH.
    + reflexivity.
    + right. discriminate.
    + destruct C as [C|C]; [left; exact C|]. right. inversion C; subst. split; [assumption|].
      apply flat_map_nonempty; [discriminate | assumption].
Qed.

Lemma render_flatten1 (options : RenderOptions) (n : Z) (c : Node) :
  indent options = false \/ solid c = true ->
  renderInternal (Arr (flatten1 c)) options n = renderInternal c options n.
Proof.
  induction c as [s|items IH|nm ps ch IH] using Node_nested_ind; intros C.
  - apply render_singleton.
  - rewrite flatten1_Arr. apply render_flat_map.
    + rewrite Forall_forall in *. intros x Hx. apply IH; [exact Hx|].
      destruct C as [C|C]; [left; exact C|]. right.
      simpl in C. apply andb_prop in C. destruct C as [_ C].
      rewrite forallb_forall in C. auto.
    + destruct C as [C|C]; [left; exact C|]. right.
      simpl in C. apply andb_prop in C. destruct C as [_ C].
      rewrite forallb_forall in C. rewrite Forall_forall. intros x Hx.
      apply solid_flatten1_nonempty. auto.
  - destruct nm; try apply render_singleton.
    rewrite flatten1_Fragment, renderInternal_Fragment. apply render_flat_map.
    + rewrite Forall_forall in *. intros x Hx. apply IH; [exact Hx|].
      destruct C as [C|C]; [left; exact C|]. right.
      simpl in C. apply andb_prop in C. destruct C as [_ C].
      rewrite forallb_forall in C. auto.
    + destruct C as [C|C]; [left; exact C|]. right.
      simpl in C. apply andb_prop in C. destruct C as [_ C].
      rewrite forallb_forall in C. rewrite Forall_forall. intros x Hx.
      apply solid_flatten1_nonempty. auto.
Qed.


(** X2. Flattening does not change what a list of children renders
    to, when [indent] is off or no array and no fragment nested in the
    list is empty: the flattened list renders as the list, and so does
    the fragment that [new Element] builds from the list. *)
Theorem flatten_keeps_rendering (l : list Node) (ps : Props)
    (options : RenderOptions) (n : Z) :
  indent options = false \/ forallb solid l = true ->
  renderInternal (Arr (flatten l)) options n = renderInternal (Arr l) options n /\
  renderInternal (Elem (new_Element Fragment ps l)) options n =
  renderInternal (Arr l) options n.
Proof.
  intros C.
  assert (E : renderInternal (Arr (flatten l)) options n = renderInternal (Arr l) options n).
  { apply render_flat_map.
    - rewrite Forall_forall. intros x Hx. apply render_flatten1.
      destruct C as [C|C]; [left; exact C|]. right.
      rewrite forallb_forall in C. auto.
    - destruct C as [C|C]; [left; exact C|]. right.
      rewrite forallb_forall in C. rewrite Forall_forall. intros x Hx.
      apply solid_flatten1_nonempty. auto. }
  split; [exact E|].
  unfold new_Element. rewrite renderInternal_Fragment. exact E.
Qed.


(** ** Indentation *)

Lemma createIndent_off (options : RenderOptions) (n : Z) :
  indent options = false -> createIndent options n = Ok EmptyString.
Proof. unfold createIndent. intros ->. reflexivity. Qed.

Lemma Forall_mapM_ext {A B : Type} (f g : A -> result B) (l : list A) :
  Forall (fun a => f a = g a) l -> mapM f l = mapM g l.
Proof.
  induction 1 as [|a l Ha _ IH]; [reflexivity|].
  rewrite !mapM_cons, Ha, IH. reflexivity.
Qed.

Lemma render_indent_off (o1 o2 : RenderOptions) (node : Node) :
  indent o1 = false -> indent o2 = false ->
  useSelfCloseTags o1 = useSelfCloseTags o2 ->
  forall n m, renderInternal node o1 n = renderInternal node o2 m.
Proof.
  intros H1 H2 U.
  induction node as [s|items IH|nm ps ch IH IHh] using Node_deep_ind; intros n m.
  - rewrite !renderInternal_eq. simpl. rewrite !createIndent_off by assumption. reflexivity.
  - rewrite !renderInternal_Arr, !nl_off by assumption.
    rewrite (Forall_mapM_ext _ (fun c => renderInternal c o2 m)); [reflexivity|].
    eapply Forall_impl; [|exact IH]. intros c Hc. apply Hc.
  - destruct nm.
    2: { rewrite !renderInternal_Fragment, !renderInternal_Arr, !nl_off by assumption.
         rewrite (Forall_mapM_ext _ (fun c => renderInternal c o2 m)); [reflexivity|].
         eapply Forall_impl; [|exact IH]. intros c Hc. apply Hc. }
    2: { rewrite !renderInternal_HTML, !createIndent_off by assumption.
         rewrite (Forall_mapM_ext (fun c => renderInternal c o1 (n + 1))
                                  (fun c => renderInternal c o2 (m + 1)) (head_of ch)).
         2: { eapply Forall_impl; [|exact IHh]. intros c Hc. apply Hc. }
         rewrite (Forall_mapM_ext (fun c => renderInternal c o1 (n + 1))
                                  (fun c => renderInternal c o2 (m + 1)) (rest_of ch)).
         2: { rewrite Forall_forall in *. intros c Hc. apply IH, rest_of_incl, Hc. }
         unfold document_text. rewrite !nl_off, H1, H2 by assumption. reflexivity. }
    all: rewrite !renderInternal_eq;
      cbn [renderInternal_body name props children Name_eqb];
      rewrite !createIndent_off, !nl_off, H1, H2, U by assumption;
      rewrite (Forall_mapM_ext (fun c => renderInternal c o1 (n + 1))
                               (fun c => renderInternal c o2 (m + 1)) ch);
      [reflexivity | eapply Forall_impl; [|exact IH]; intros c Hc; apply Hc].
Qed.

(** X4. With [indent] off, the rendering does not depend on the
    indentation level, on [indentString] or on [indentSize]: two sets
    of options without [indent] and with the same [useSelfCloseTags]
    render every node alike, success or exception, at any two
    levels. *)
Theorem indent_off_ignores_indentation (node : Node) (o1 o2 : RenderOptions) (n m : Z) :
  indent o1 = false -> indent o2 = false ->
  useSelfCloseTags o1 = useSelfCloseTags o2 ->
  renderInternal node o1 n = renderInternal node o2 m.
Proof. intros H1 H2 U. apply render_indent_off; assumption. Qed.

Lemma repeat_nat_length (s : string) (k : nat) :
  String.length (repeat_nat s k) = (k * String.length s)%nat.
Proof.
  induction k as [|k IH]; simpl; [reflexivity|].
  assert (L : forall a b, String.length (a +++ b) = (String.length a + String.length b)%nat).
  { induction a as [|x a IHa]; simpl; intros b; [reflexivity|]. rewrite IHa. reflexivity. }
  rewrite L, IH. reflexivity.
Qed.

(** X5. With [indent] on and an indentation that is not negative,
    [createIndent] gives [indentString] once per level when it is not
    empty, whatever [indentSize] is, as long as the string is not
    longer than the engine allows; with an empty [indentString] it
    gives [indentSize] spaces per level, for an [indentSize] that is
    not negative and under the same bound, and the empty string when
    [indentSize] is undefined. *)
Theorem createIndent_content (options : RenderOptions) (n : Z) (s : string) (z : Z) :
  indent options = true -> 0 <= n ->
  (indentString_field options = Some s -> s <> EmptyString ->
   n * Z.of_nat (String.length s) <= max_string_length ->
   createIndent options n = Ok (repeat_nat s (Z.to_nat n))) /\
  (indentString_field options = Some EmptyString ->
   indentSize_field options = Some z -> 0 <= z ->
   n * z <= max_string_length ->
   exists t, createIndent options n = Ok t /\
             Z.of_nat (String.length t) = n * z /\
             t = repeat_nat " "%string (Z.to_nat (n * z))) /\
  (indentString_field options = Some EmptyString ->
   indentSize_field options = None ->
   createIndent options n = Ok EmptyString).
Proof.
  intros I N. unfold createIndent. rewrite I. cbn [negb]. split; [|split].
  - intros -> S M. apply String.eqb_neq in S. rewrite S. cbn [negb].
    unfold repeat. destruct (n <? 0) eqn:E; [apply Z.ltb_lt in E; lia|].
    destruct (max_string_length <? n * Z.of_nat (String.length s)) eqn:E';
      [apply Z.ltb_lt in E'; lia | reflexivity].
  - intros -> -> Z0 M. cbn [String.eqb negb].
    destruct (z =? 0) eqn:E; cbn [negb].
    + apply Z.eqb_eq in E. rewrite E, Z.mul_0_r. exists EmptyString. auto.
    + unfold repeat.
      destruct (n * z <? 0) eqn:E'; [apply Z.ltb_lt in E'; nia|].
      cbn [String.length Z.of_nat Pos.of_succ_nat]. rewrite Z.mul_1_r.
      destruct (max_string_length <? n * z) eqn:E''; [apply Z.ltb_lt in E''; lia|].
      eexists. split; [reflexivity|]. split; [|reflexivity].
      rewrite repeat_nat_length. simpl. nia.
  - intros -> ->. reflexivity.
Qed.

(** X6. [createIndent] throws exactly when [indent] is on and either
    [indentString] is undefined, a [TypeError], or the count handed to
    [repeat] is negative or gives a string longer than the engine
    allows, a [RangeError]: the count is the indentation when
    [indentString] is not empty, the product of the indentation and
    [indentSize] otherwise. *)
Theorem createIndent_throws (options : RenderOptions) (n : Z) (e : error) :
  createIndent options n = Throw e <->
  indent options = true /\
  ((indentString_field options = None /\ e = TypeError) \/
   (exists s, indentString_field options = Some s /\ s <> EmptyString /\
              e = RangeError /\
              (n < 0 \/ max_string_length < n * Z.of_nat (String.length s))) \/
   (exists z, indentString_field options = Some EmptyString /\
              indentSize_field options = Some z /\
              e = RangeError /\
              (n * z < 0 \/ max_string_length < n * z))).
Proof.
  pose proof max_string_length_nonneg as M.
  unfold createIndent, repeat.
  destruct (indent options); cbn [negb].
  2: { split; [discriminate | intros (H & _); discriminate]. }
  destruct (indentString_field options) as [s|].
  2: { split.
       - intros H. inversion H. split; [reflexivity|]. left. auto.
       - intros (_ & [(_ & ->)|[(s & H & _)|(z & H & _)]]); [reflexivity | discriminate..]. }
  destruct (String.eqb s EmptyString) eqn:S; cbn [negb].
  - apply String.eqb_eq in S. subst s.
    destruct (indentSize_field options) as [z|].
    2: { split; [discriminate|].
         intros (_ & [(H & _)|[(s & H & S & _)|(z & _ & H & _)]]);
           [discriminate | congruence | discriminate]. }
    cbn [String.length Z.of_nat Pos.of_succ_nat]. rewrite Z.mul_1_r.
    destruct (z =? 0) eqn:Z0; cbn [negb].
    + apply Z.eqb_eq in Z0. subst z. split; [discriminate|].
      intros (_ & [(H & _)|[(s & H & S & _)|(z & _ & H & _ & B)]]);
        [discriminate | congruence |].
      inversion H. subst z. lia.
    + destruct (n * z <? 0) eqn:E.
      * apply Z.ltb_lt in E. split.
        -- intros H. inversion H. split; [reflexivity|]. right. right.
           exists z. auto.
        -- intros (_ & [(H & _)|[(s & H & S & _)|(z' & _ & _ & -> & _)]]);
             [discriminate | congruence | reflexivity].
      * apply Z.ltb_ge in E.
        destruct (max_string_length <? n * z) eqn:E'.
        -- apply Z.ltb_lt in E'. split.
           ++ intros H. inversion H. split; [reflexivity|]. right. right.
              exists z. auto.
           ++ intros (_ & [(H & _)|[(s & H & S & _)|(z' & _ & _ & -> & _)]]);
                [discriminate | congruence | reflexivity].
        -- apply Z.ltb_ge in E'. split; [discriminate|].
           intros (_ & [(H & _)|[(s & H & S & _)|(z' & _ & H & _ & B)]]);
             [discriminate | congruence |].
           inversion H. subst z'. lia.
  - apply String.eqb_neq in S.
    destruct (n <? 0) eqn:E.
    + apply Z.ltb_lt in E. split.
      * intros H. inversion H. split; [reflexivity|]. right. left.
        exists s. auto.
      * intros (_ & [(H & _)|[(s' & _ & _ & -> & _)|(z & H & _)]]);
          [discriminate | reflexivity | congruence].
    + apply Z.ltb_ge in E.
      destruct (max_string_length <? n * Z.of_nat (String.length s)) eqn:E'.
      * apply Z.ltb_lt in E'. split.
        -- intros H. inversion H. split; [reflexivity|]. right. left.
           exists s. auto.
        -- intros (_ & [(H & _)|[(s' & _ & _ & -> & _)|(z & H & _)]]);
             [discriminate | reflexivity | congruence].
      * apply Z.ltb_ge in E'. split; [discriminate|].
        intros (_ & [(H & _)|[(s' & H & _ & _ & B)|(z & H & _)]]);
          [discriminate | | congruence].
        inversion H. subst s'. lia.
Qed.

(** ** Attributes *)

Lemma get_cons_other (k k' : string) (v : value) (r : Props) :
  String.eqb k k' = false -> get ((k, v) :: r) k' = get r k'.
Proof. intros H. simpl. rewrite H. reflexivity. Qed.

Lemma existsb_eqb_false (k : string) (l : list string) :
  existsb (String.eqb k) l = false -> Forall (fun k' => String.eqb k k' = false) l.
Proof.
  induction l as [|x l IH]; simpl; [constructor|].
  intros H. apply orb_false_elim in H. destruct H as [H1 H2]. constructor; auto.
Qed.

Lemma createAttrs_entries (ps : Props) :
  nodupb (keys ps) = true ->
  mapM (fun k => v <- to_string (get ps k) ;; Ok (attr k v)) (keys ps) =
  mapM (fun kv => v <- to_string (snd kv) ;; Ok (attr (fst kv) v)) ps.
Proof.
  induction ps as [|[k v] r IH]; [reflexivity|].
  simpl keys. simpl nodupb. intros H. apply andb_prop in H. destruct H as [Hk Hr].
  apply negb_true_iff in Hk.
  rewrite !mapM_cons. simpl get at 1. rewrite String.eqb_refl. simpl fst. simpl snd.
  rewrite <- (IH Hr).
  rewrite (Forall_mapM_ext
             (fun k0 => v0 <- to_string (get ((k, v) :: r) k0) ;; Ok (attr k0 v0))
             (fun k0 => v0 <- to_string (get r k0) ;; Ok (attr k0 v0)) (keys r)).
  - reflexivity.
  - eapply Forall_impl; [|apply existsb_eqb_false; exact Hk].
    intros k' Hk'. cbv beta. rewrite get_cons_other by exact Hk'. reflexivity.
Qed.

(** X7. For an object with distinct keys whose values all convert to
    strings, [createAttrs] gives one attribute per property, in the
    order of the keys, each a space, the key, an equals sign and the
    string of the value between double quotes, with nothing escaped and
    nothing in between. *)
Theorem createAttrs_format (ps : Props) (vs : list string) :
  nodupb (keys ps) = true ->
  mapM to_string (map snd ps) = Ok vs ->
  createAttrs ps = Ok (attrs_text (keys ps) vs).
Proof.
  intros N V. unfold createAttrs.
  change (fun k => v <- to_string (get ps k) ;;
                   Ok (" " +++ k +++ "=" +++ dquote +++ v +++ dquote)%string)
    with (fun k => v <- to_string (get ps k) ;; Ok (attr k v)).
  rewrite createAttrs_entries by exact N. clear N.
  revert vs V. induction ps as [|[k v] r IH]; intros vs V.
  - inversion V. reflexivity.
  - simpl map in V. rewrite mapM_cons in V. rewrite mapM_cons. simpl fst. simpl snd.
    destruct (to_string v) as [sv|e]; [|discriminate]. cbn [bind] in *.
    destruct (mapM to_string (map snd r)) as [vs'|e] eqn:E; [|discriminate].
    cbn [bind] in V. inversion V; subst. specialize (IH vs' eq_refl).
    destruct (mapM (fun kv => v0 <- to_string (snd kv) ;; Ok (attr (fst kv) v0)) r)
      as [as'|e]; [|discriminate].
    cbn [bind] in *. inversion IH as [J]. f_equal.
    rewrite join_cons_nosep, J. reflexivity.
Qed.

Lemma mapM_Throw_first {A B : Type} (f : A -> result B) (l : list A) (e : error) :
  mapM f l = Throw e <->
  exists before a after,
    l = before ++ a :: after /\
    forallb (fun x => match f x with Ok _ => true | Throw _ => false end) before = true /\
    f a = Throw e.
Proof.
  induction l as [|x l IH].
  - split; [discriminate|]. intros (before & a & after & H & _). destruct before; discriminate.
  - rewrite mapM_cons. destruct (f x) as [b|e'] eqn:F; cbn [bind].
    + destruct (mapM f l) as [bs|e''] eqn:M; cbn [bind].
      * split; [discriminate|].
        intros (before & a & after & H & Hb & Ha).
        destruct before as [|y before]; simpl in H; inversion H; subst.
        -- congruence.
        -- simpl in Hb. apply andb_prop in Hb. destruct Hb as [_ Hb].
           assert (X : Ok bs = Throw e) by (apply IH; eauto 6). discriminate.
      * split.
        -- intros H. inversion H; subst.
           destruct (proj1 IH eq_refl) as (before & a & after & H1 & H2 & H3).
           exists (x :: before), a, after. simpl. rewrite F, H1. auto.
        -- intros (before & a & after & H & Hb & Ha).
           destruct before as [|y before]; simpl in H; inversion H; subst.
           ++ congruence.
           ++ simpl in Hb. apply andb_prop in Hb. destruct Hb as [_ Hb].
              apply IH. eauto 6.
    + split.
      * intros H. inversion H; subst. exists [], x, l. auto.
      * intros (before & a & after & H & Hb & Ha).
        destruct before as [|y before]; simpl in H; inversion H; subst.
        -- congruence.
        -- simpl in Hb. rewrite F in Hb. discriminate.
Qed.

Lemma forallb_pointwise {A : Type} (p q : A -> bool) (l : list A) :
  (forall a, p a = q a) -> forallb p l = forallb q l.
Proof. intros H. induction l as [|a l IH]; simpl; [reflexivity | rewrite H, IH; reflexivity]. Qed.

Lemma createAttrs_Throw_first (ps : Props) (e : error) :
  createAttrs ps = Throw e <->
  exists before k after,
    keys ps = before ++ k :: after /\
    forallb (fun k' => converts (get ps k')) before = true /\
    to_string (get ps k) = Throw e.
Proof.
  unfold createAttrs.
  set (g := fun k => v <- to_string (get ps k) ;;
                     Ok (" " +++ k +++ "=" +++ dquote +++ v +++ dquote)%string).
  assert (G1 : forall k, match g k with Ok _ => true | Throw _ => false end
                         = converts (get ps k)).
  { intros k. unfold g, converts. destruct (to_string (get ps k)); reflexivity. }
  assert (G2 : forall k, g k = Throw e <-> to_string (get ps k) = Throw e).
  { intros k. unfold g. destruct (to_string (get ps k)); cbn [bind];
      split; congruence. }
  assert (H : mapM g (keys ps) = Throw e <->
              exists before k after,
                keys ps = before ++ k :: after /\
                forallb (fun k' => converts (get ps k')) before = true /\
                to_string (get ps k) = Throw e).
  { rewrite mapM_Throw_first. split.
    - intros (before & k & after & H1 & H2 & H3). exists before, k, after.
      split; [exact H1|]. split; [|apply G2; exact H3].
      etransitivity; [|exact H2]. apply forallb_pointwise. intros x. symmetry. apply G1.
    - intros (before & k & after & H1 & H2 & H3). exists before, k, after.
      split; [exact H1|]. split; [|apply G2; exact H3].
      etransitivity; [|exact H2]. apply forallb_pointwise. intros x. apply G1. }
  destruct (mapM g (keys ps)) as [bs|e']; cbn [bind].
  - split; [discriminate | intros K; apply H in K; discriminate].
  - split.
    + intros K. apply H. inversion K. reflexivity.
    + intros K. apply H in K. inversion K. reflexivity.
Qed.

Lemma forallb_false_first {A : Type} (p : A -> bool) (l : list A) :
  forallb p l = false ->
  exists before a after, l = before ++ a :: after /\ forallb p before = true /\ p a = false.
Proof.
  induction l as [|x l IH]; [discriminate|].
  simpl. destruct (p x) eqn:P; simpl.
  - intros H. destruct (IH H) as (before & a & after & -> & H1 & H2).
    exists (x :: before), a, after. simpl. rewrite P. auto.
  - intros _. exists [], x, l. auto.
Qed.


Lemma get_primitive (ps : Props) (k : string) :
  forallb (fun kv => is_primitive (snd kv)) ps = true -> is_primitive (get ps k) = true.
Proof.
  induction ps as [|[k' v] r IH]; simpl; [reflexivity|].
  intros H. apply andb_prop in H. destruct H as [Hv Hr].
  destruct (String.eqb k' k); auto.
Qed.

Lemma to_string_primitive (v : value) (e : error) :
  is_primitive v = true ->
  (to_string v = Throw e <-> e = TypeError /\ exists id, v = VSym id).
Proof.
  destruct v as [| |[|]| | | | |]; simpl; intros P; try discriminate;
    try (split; [discriminate | intros [_ [id H]]; discriminate]).
  split; [intros H; inversion H; eauto | intros [-> _]; reflexivity].
Qed.

Lemma converts_primitive (v : value) :
  is_primitive v = true -> (converts v = false <-> exists id, v = VSym id).
Proof.
  destruct v as [| |[|]| | | | |]; unfold converts; simpl; intros P; try discriminate;
    try (split; [discriminate | intros [id H]; discriminate]).
  split; eauto.
Qed.

(** X8. [createAttrs] throws exactly when the conversion to a string of
    the value that it reads for one of the keys throws, and the
    exception is the one of the first such key in the order of the
    keys. When no value of the object is an object, it throws exactly
    when the value it reads for one of the keys is a symbol, and the
    exception is a [TypeError]. *)
Theorem createAttrs_throws (ps : Props) (e : error) :
  (createAttrs ps = Throw e <->
   exists before k after,
     keys ps = before ++ k :: after /\
     forallb (fun k' => converts (get ps k')) before = true /\
     to_string (get ps k) = Throw e) /\
  (forallb (fun kv => is_primitive (snd kv)) ps = true ->
   (createAttrs ps = Throw e <->
    e = TypeError /\ exists k id, In k (keys ps) /\ get ps k = VSym id)).
Proof.
  split; [apply createAttrs_Throw_first|].
  intros P. rewrite createAttrs_Throw_first. split.
  - intros (before & k & after & H1 & H2 & H3).
    apply to_string_primitive in H3; [|apply get_primitive; exact P].
    destruct H3 as [-> [id H3]]. split; [reflexivity|].
    exists k, id. split; [|exact H3]. rewrite H1. apply in_or_app. right. left. reflexivity.
  - intros [-> (k & id & Hk & Hid)].
    destruct (forallb (fun k' => converts (get ps k')) (keys ps)) eqn:E.
    + rewrite forallb_forall in E. specialize (E k Hk). rewrite Hid in E. discriminate.
    + destruct (forallb_false_first _ _ E) as (before & k' & after & H1 & H2 & H3).
      exists before, k', after. split; [exact H1|]. split; [exact H2|].
      apply to_string_primitive; [apply get_primitive; exact P|].
      split; [reflexivity|].
      apply converts_primitive; [apply get_primitive; exact P | exact H3].
Qed.

(** ** The alias of [class] *)

Lemma keys_set (ps : Props) (k : string) (v : value) :
  keys (set ps k v) =
  if existsb (fun k' => String.eqb k' k) (keys ps) then keys ps else keys ps ++ [k].
Proof.
  induction ps as [|[k0 v0] r IH]; [reflexivity|].
  simpl. destruct (String.eqb k0 k) eqn:E; simpl; [reflexivity|].
  rewrite IH. destruct (existsb _ (keys r)); reflexivity.
Qed.

Lemma nodupb_app_new (l : list string) (k : string) :
  nodupb l = true -> existsb (fun k' => String.eqb k' k) l = false ->
  nodupb (l ++ [k]) = true.
Proof.
  induction l as [|x l IH]; [reflexivity|].
  simpl. intros H E. apply andb_prop in H. destruct H as [H1 H2].
  apply orb_false_elim in E. destruct E as [E1 E2].
  rewrite (IH H2 E2), andb_true_r.
  rewrite existsb_app. simpl. rewrite E1. apply negb_true_iff in H1. rewrite H1. reflexivity.
Qed.


(** X9. After the alias statement, [class] reads as [className] when
    [className] is truthy and [class] was falsy or missing, and as
    before otherwise; every other property reads as before. *)
Theorem alias_class_lookup (ps : Props) :
  get (alias_class ps) "class"%string =
  (if truthy (get ps "className"%string) && negb (truthy (get ps "class"%string))
   then get ps "className"%string else get ps "class"%string) /\
  (forall k, String.eqb "class"%string k = false -> get (alias_class ps) k = get ps k).
Proof.
  unfold alias_class.
  destruct (truthy (get ps "className"%string) && negb (truthy (get ps "class"%string))).
  - split; [apply get_set_same | intros k H; apply get_set_other; exact H].
  - split; [reflexivity | intros; reflexivity].
Qed.

(** X10. The alias statement keeps the keys and their order: a [class]
    that the object has stays in its place, a new [class] comes last,
    and nothing else is added or removed; distinct keys stay
    distinct. *)
Theorem alias_class_keys (ps : Props) :
  keys (alias_class ps) =
  (if truthy (get ps "className"%string) && negb (truthy (get ps "class"%string))
      && negb (existsb (fun k => String.eqb k "class"%string) (keys ps))
   then keys ps ++ ["class"%string] else keys ps) /\
  (nodupb (keys ps) = true -> nodupb (keys (alias_class ps)) = true).
Proof.
  unfold alias_class.
  destruct (truthy (get ps "className"%string) && negb (truthy (get ps "class"%string)));
    cbn [andb]; [|split; [reflexivity | auto]].
  rewrite keys_set.
  destruct (existsb (fun k => String.eqb k "class"%string) (keys ps)) eqn:E; cbn [negb].
  - split; [reflexivity | auto].
  - split; [reflexivity|]. intros N. apply nodupb_app_new; assumption.
Qed.

(** X11. The write of the alias statement into the properties of a
    node does not change what the node renders to: the node with the
    properties as the statement leaves them renders as the node with
    the properties as they were, so a second rendering of a tree gives
    the text of the first. *)
Theorem render_after_alias (nm : Name) (ps : Props) (ch : list Node)
    (options : RenderOptions) (n : Z) :
  renderInternal (Elem (mkElement nm (alias_class ps) ch)) options n =
  renderInternal (Elem (mkElement nm ps ch)) options n.
Proof.
  rewrite !renderInternal_eq.
  destruct nm; cbn [renderInternal_body name props children Name_eqb];
    try rewrite alias_class_idempotent; reflexivity.
Qed.

(** ** Tags *)

(** X12. An element with a tag name that has a child, or that is
    rendered with [useSelfCloseTags] false, is never self-closing: its
    text is the opening tag with the attributes, the children one level
    deeper and the closing tag; line breaks and the indentation come
    around the children only with [indent] on and at least one
    child. *)
Theorem tag_with_closing (tag : string) (ps : Props) (ch : list Node)
    (options : RenderOptions) (n : Z) :
  ch <> [] \/ useSelfCloseTags options = SCBool false ->
  renderInternal (Elem (mkElement (Tag tag) ps ch)) options n =
  (attrs <- createAttrs (alias_class ps) ;;
   indentString <- createIndent options n ;;
   rs <- mapM (fun c => renderInternal c options (n + 1)) ch ;;
   Ok (indentString +++ "<" +++ tag +++ attrs +++ ">" +++
       (if nonempty ch && indent options then newline else EmptyString) +++
       join (nl options) rs +++
       (if nonempty ch && indent options then newline +++ indentString else EmptyString) +++
       "</" +++ tag +++ ">")%string).
Proof.
  intros H. rewrite renderInternal_eq.
  cbn [renderInternal_body name props children Name_eqb name_to_string].
  assert (S : Nat.eqb (List.length ch) 0
              && (equals_true (useSelfCloseTags options)
                  || includes_name (useSelfCloseTags options) (Tag tag)) = false).
  { destruct H as [H|H].
    - destruct ch; [congruence | reflexivity].
    - rewrite H. simpl. apply andb_false_r. }
  rewrite S. cbn [negb].
  destruct (createAttrs (alias_class ps)) as [attrs|e]; [|reflexivity].
  destruct (createIndent options n) as [i|e]; [|reflexivity].
  cbn [bind].
  destruct (mapM (fun c => renderInternal c options (n + 1)) ch) as [rs|e]; [|reflexivity].
  cbn [bind]. f_equal.
  destruct (nonempty ch && indent options); repeat rewrite append_assoc; reflexivity.
Qed.

(** ** Switch, further *)

Lemma find_filter {A : Type} (p q : A -> bool) (l : list A) :
  (forall a, p a = true -> q a = true) -> find p (filter q l) = find p l.
Proof.
  intros H. induction l as [|a l IH]; [reflexivity|].
  simpl. destruct (q a) eqn:Q; simpl.
  - destruct (p a); [reflexivity | exact IH].
  - destruct (p a) eqn:P; [apply H in P; congruence | exact IH].
Qed.

Lemma is_case_of_is_CASE (expr : value) (c : Node) :
  is_case_of expr c = true -> is_CASE c = true.
Proof.
  destruct c as [s|l|e]; simpl; try discriminate.
  intros H. apply andb_prop in H. tauto.
Qed.

(** X13. [Switch] looks at the elements named [CASE] and [DEFAULT]
    among its direct children and at nothing else: texts, other
    elements, and arrays (with whatever cases they hold) can be removed
    from the children without a change of the result. *)
Theorem Switch_sees_direct_cases (expr : value) (childs : list Node) :
  Switch expr childs =
  Switch expr (filter (fun c => is_CASE c || is_DEFAULT c) childs) /\
  (forall l, Switch expr (Arr l :: childs) = Switch expr childs) /\
  (forall s, Switch expr (Text s :: childs) = Switch expr childs).
Proof.
  split; [|split; reflexivity].
  unfold Switch. rewrite !find_filter; [reflexivity| |].
  - intros a H. rewrite H. apply orb_true_r.
  - intros a H. apply is_case_of_is_CASE in H. rewrite H. reflexivity.
Qed.

(** X14. A case that matches wins over a default, wherever the default
    stands among the children: when some case matches, the result is
    the one for the children without their defaults. *)
Theorem Switch_case_over_default (expr : value) (childs : list Node) :
  existsb (is_case_of expr) childs = true ->
  Switch expr childs = Switch expr (filter (fun c => negb (is_DEFAULT c)) childs).
Proof.
  intros H. unfold Switch.
  rewrite (find_filter (is_case_of expr) (fun c => negb (is_DEFAULT c))).
  - destruct (find (is_case_of expr) childs) as [c|] eqn:F.
    + destruct c as [s|l|e]; try reflexivity;
        apply find_some in F; destruct F as [_ F]; discriminate F.
    + apply existsb_exists in H. destruct H as (c & Hin & Hc).
      pose proof (List.find_none _ _ F c Hin) as K. congruence.
  - intros a Ha. destruct a as [s|l|[nm ps ch]]; try discriminate.
    simpl in *. apply andb_prop in Ha. destruct Ha as [Ha _].
    destruct nm; try discriminate. reflexivity.
Qed.

Lemma loose_eq_NaN (v : value) : loose_eq v VNaN = false.
Proof.
  destruct v as [| | | | | | |id p s]; try reflexivity.
  destruct p; reflexivity.
Qed.

(** X15. No case matches the scrutinee [NaN], not even a case whose
    value is [NaN]: the switch resolves to the first default, or to the
    empty fragment when there is none. *)
Theorem Switch_NaN (childs : list Node) :
  Switch VNaN childs =
  match find is_DEFAULT childs with
  | Some (Elem def) => new_Element Fragment [] (children def)
  | _ => new_Element Fragment [] []
  end.
Proof.
  unfold Switch.
  assert (F : find (is_case_of VNaN) childs = None).
  { induction childs as [|c r IH]; [reflexivity|].
    simpl. destruct c as [s|l|e]; simpl; try exact IH.
    rewrite loose_eq_NaN, andb_false_r. exact IH. }
  rewrite F. reflexivity.
Qed.

(** ** When rendering throws *)





















Lemma head_of_head_first (ps : Props) (h r : list Node) :
  head_of (Elem (mkElement HEAD ps h) :: r) = h /\
  rest_of (Elem (mkElement HEAD ps h) :: r) = r.
Proof. split; reflexivity. Qed.

(** X19. The place of the [HEAD] element among the children of a
    document, and the properties of that element, do not matter: a
    document renders as the document that has first a [HEAD] element,
    under any properties, with the head content, and then the other
    children. For a document without a [HEAD] element, that element is
    an empty one. *)
Theorem document_Head_anywhere (ps ps' : Props) (ch : list Node)
    (options : RenderOptions) (n : Z) :
  renderInternal (Elem (mkElement HTML ps ch)) options n =
  renderInternal (Elem (mkElement HTML ps
                    (Elem (mkElement HEAD ps' (head_of ch)) :: rest_of ch))) options n.
Proof.
  rewrite !renderInternal_HTML.
  destruct (head_of_head_first ps' (head_of ch) (rest_of ch)) as [-> ->]. reflexivity.
Qed.

(** ** The renderer of [create] *)

Lemma wrap_HTML_name (top : Element) : name (wrap_HTML top) = HTML.
Proof.
  unfold wrap_HTML. destruct top as [nm ps ch]. destruct nm; reflexivity.
Qed.

Lemma flatten1_other (e : Element) : name e <> Fragment -> flatten1 (Elem e) = [Elem e].
Proof.
  destruct e as [nm ps ch]. simpl. intros N.
  destruct nm; try reflexivity. exfalso. apply N. reflexivity.
Qed.

(** X20. The renderer of [create] wraps what is not a document into a
    document once: a document is rendered as it is, and any other
    element is rendered as the document without properties that
    construction builds from that element as the only child. That
    child is the element itself, unless it is a fragment, which is
    rendered as the page of its children, so that a [HEAD] element in
    the fragment gives the head content. A wrapped element is not
    wrapped again. *)
Theorem renderer_wraps_once (options : PartialOptions) (top : Element) :
  (name top = HTML ->
   renderer options top = render (Elem top) (create_options options) 0) /\
  (name top <> HTML ->
   renderer options top =
   render (Elem (new_Element HTML [] [Elem top])) (create_options options) 0) /\
  (name top <> HTML -> name top <> Fragment ->
   renderer options top =
   render (Elem (mkElement HTML [] [Elem top])) (create_options options) 0) /\
  wrap_HTML (wrap_HTML top) = wrap_HTML top /\
  renderer options (wrap_HTML top) = renderer options top /\
  (forall ps ch, top = mkElement Fragment ps ch ->
                 renderer options top = renderer options (HtmlPage [] ch)).
Proof.
  assert (W : wrap_HTML (wrap_HTML top) = wrap_HTML top).
  { unfold wrap_HTML at 1. rewrite wrap_HTML_name. reflexivity. }
  assert (N : name top <> HTML -> wrap_HTML top = new_Element HTML [] [Elem top]).
  { intros H. unfold wrap_HTML. destruct top as [nm ps ch]. simpl in *.
    destruct nm; try reflexivity. exfalso. apply H. reflexivity. }
  split; [|split; [|split; [|split; [exact W | split]]]].
  - intros H. unfold renderer, wrap_HTML. rewrite H. reflexivity.
  - intros H. unfold renderer. rewrite (N H). reflexivity.
  - intros H F. unfold renderer. rewrite (N H). unfold new_Element, flatten.
    cbn [flat_map]. rewrite (flatten1_other top F). reflexivity.
  - unfold renderer. rewrite W. reflexivity.
  - intros ps ch ->. unfold renderer, wrap_HTML, HtmlPage, new_Element. cbn [name Name_eqb negb].
    change (flatten [Elem (mkElement Fragment ps ch)]) with (flatten ch ++ []).
    rewrite app_nil_r. reflexivity.
Qed.

(** X21. What the renderer of [create] returns is a document, whatever
    element it is given: the text starts, without indentation, with the
    doctype line, the opening [html] tag without attributes and the
    opening [head] tag, and it ends with the closing [html] tag. *)
Theorem renderer_gives_document (options : PartialOptions) (top : Element) (s : string) :
  renderer options top = Ok s ->
  exists middle,
    s = ("<!DOCTYPE html>" +++ nl (with_defaults (create_options options)) +++
         "<html>" +++ nl (with_defaults (create_options options)) +++
         "<head>" +++ middle +++ "</html>")%string.
Proof.
  unfold renderer, render.
  pose proof (wrap_HTML_name top) as N.
  destruct (wrap_HTML top) as [nm ps ch]. simpl in N. subst nm.
  rewrite renderInternal_HTML.
  destruct (createIndent (with_defaults (create_options options)) 0) as [i|e] eqn:I;
    [|discriminate].
  apply createIndent_zero in I. subst i. cbn [bind].
  destruct (mapM _ (head_of ch)) as [hs|e]; [|discriminate]. cbn [bind].
  destruct (mapM _ (rest_of ch)) as [bs|e]; [|discriminate]. cbn [bind].
  intros H. inversion H. unfold document_text.
  set (o := with_defaults (create_options options)).
  exists (nl o +++ join (nl o) hs +++
          (if indent o && nonempty (head_of ch) then newline else EmptyString) +++
          "</head>" +++ nl o +++ "<body>" +++ nl o +++ join (nl o) bs +++
          (if nonempty (rest_of ch) && indent o then newline else EmptyString) +++
          "</body>" +++ nl o)%string.
  repeat rewrite append_assoc. reflexivity.
Qed.

Lemma void_tags_not_true : equals_true (SCList void_tags) = false.
Proof. reflexivity. Qed.

(** X22. With the options of [create] and no [useSelfCloseTags] given,
    or one that is undefined, a childless element is self-closing
    exactly when its tag is in the list of [create]; a
    [useSelfCloseTags] that is given, [false] included, is kept as it
    is. *)
Theorem create_self_closing (options : PartialOptions) (tag : string) (ps : Props) (n : Z) :
  (p_useSelfCloseTags options = None \/ p_useSelfCloseTags options = Some SCUndefined ->
   renderInternal (Elem (mkElement (Tag tag) ps []))
                  (with_defaults (create_options options)) n =
   (attrs <- createAttrs (alias_class ps) ;;
    indentString <- createIndent (with_defaults (create_options options)) n ;;
    Ok (indentString +++ "<" +++ tag +++ attrs +++
        (if existsb (String.eqb tag) void_tags then " />" else "></" +++ tag +++ ">"))%string)) /\
  (forall u, p_useSelfCloseTags options = Some u -> u <> SCUndefined ->
             with_defaults (create_options options) = with_defaults options).
Proof.
  split.
  - intros H. rewrite renderInternal_eq.
    cbn [renderInternal_body name props children Name_eqb name_to_string].
    assert (U : useSelfCloseTags (with_defaults (create_options options)) = SCList void_tags).
    { unfold create_options. destruct H as [-> | ->]; reflexivity. }
    rewrite U. cbn [includes_name].
    rewrite void_tags_not_true. cbn [orb andb List.length Nat.eqb].
    destruct (createAttrs (alias_class ps)) as [attrs|e]; [|reflexivity].
    cbn [bind].
    match goal with |- context [createIndent ?o n] => destruct (createIndent o n) end;
      [|reflexivity].
    cbn [bind].
    destruct (existsb (String.eqb tag) void_tags); cbn [negb bind mapM nonempty List.length
                                                         Nat.eqb andb join].
    + reflexivity.
    + f_equal. repeat rewrite append_assoc. reflexivity.
  - intros u H N. unfold create_options. rewrite H.
    destruct u; [reflexivity | reflexivity | exfalso; apply N; reflexivity].
Qed.

(** X23. The handler of [createHandler] sends the status it was
    created with when there is one; without one, the numeric [status]
    property of the document that the component returns, and 200 when
    there is none or when the component returns anything else than a
    document, whose own [status] property is not looked at. The body is
    what the renderer gives for the element of the component. *)
Theorem createHandler_response {Req Res : Type} (options : PartialOptions)
    (component : Req -> Res -> list Node -> Element) (status : option Z)
    (req : Req) (res : Res) (st : value) (body : string) :
  createHandler options component status req res = Ok (st, body) ->
  renderer options (component req res []) = Ok body /\
  (forall s, status = Some s -> st = VNum s) /\
  (status = None -> name (component req res []) <> HTML -> st = VNum 200) /\
  (status = None -> name (component req res []) = HTML ->
   st = if is_number (get (props (component req res [])) "status"%string)
        then get (props (component req res [])) "status"%string
        else VNum 200).
Proof.
  unfold createHandler. intros H.
  assert (R : renderer options (wrap_HTML (component req res [])) =
              renderer options (component req res [])).
  { unfold renderer.
    assert (W : wrap_HTML (wrap_HTML (component req res [])) =
                wrap_HTML (component req res [])).
    { unfold wrap_HTML at 1. rewrite wrap_HTML_name. reflexivity. }
    rewrite W. reflexivity. }
  rewrite R in H.
  destruct (renderer options (component req res [])) as [b|e]; [|discriminate].
  cbn [bind] in H. inversion H as [[S B]]. split; [reflexivity|].
  split; [|split].
  - intros s ->. reflexivity.
  - intros -> N. unfold wrap_HTML.
    destruct (component req res []) as [nm ps ch]. simpl in N.
    destruct nm; try reflexivity. congruence.
  - intros -> N. unfold wrap_HTML. rewrite N. reflexivity.
Qed.

(** ** The generators and the invariant of the trees *)

Lemma new_Element_invariant (nm : Name) (ps : Props) (childs : list Node) :
  Forall invariant childs -> invariant (Elem (new_Element nm ps childs)).
Proof.
  intros H. constructor; [apply flatten_is_flat | apply flatten_invariant; exact H].
Qed.

Lemma invariant_children (e : Element) :
  invariant (Elem e) -> Forall invariant (children e).
Proof. intros H. inversion H; subst. assumption. Qed.

(** X24. The generators keep the invariant of the trees: from children
    in whose elements no child is an array or a fragment, [If],
    [Switch], [Case], [Default], [Head], [HtmlPage] and [createElement]
    build an element of which the same holds, with no array and no
    fragment among its own children. *)
Theorem generators_keep_invariant (childs : list Node) :
  Forall invariant childs ->
  (forall cond, invariant (Elem (If cond childs))) /\
  (forall expr, invariant (Elem (Switch expr childs))) /\
  (forall c, invariant (Elem (Case c childs))) /\
  invariant (Elem (Default childs)) /\
  (forall ps, invariant (Elem (Head ps childs))) /\
  (forall ps, invariant (Elem (HtmlPage ps childs))) /\
  (forall nm ps, invariant (Elem (createElement nm ps childs))).
Proof.
  intros H. repeat split; intros; try (apply new_Element_invariant; exact H).
  - destruct cond; apply new_Element_invariant; [exact H | constructor].
  - unfold Switch.
    destruct (find (is_case_of expr) childs) as [[s|l|found]|] eqn:F.
    4: destruct (find is_DEFAULT childs) as [[s|l|def]|] eqn:D.
    all: try (apply new_Element_invariant; constructor).
    all: try (apply find_some in F; destruct F as [_ F]; discriminate F).
    all: try (apply find_some in D; destruct D as [_ D]; discriminate D).
    + apply new_Element_invariant, invariant_children.
      apply find_some in F. destruct F as [F _].
      rewrite Forall_forall in H. auto.
    + apply new_Element_invariant, invariant_children.
      apply find_some in D. destruct D as [D _].
      rewrite Forall_forall in H. auto.
  - unfold createElement. destruct (Name_eqb nm Fragment);
      apply new_Element_invariant; exact H.
Qed.

End Rendering.

(** * Instances, on the engine of Node.js *)

#[global] Existing Instance node_engine.

Example render_README_flat :
  render (Elem (createElement (Tag "div"%string) None [Text "sub elements"%string]))
         (mkPartial (Some false) None None None) 0
  = Ok "<div>sub elements</div>"%string.
Proof. reflexivity. Qed.

Example render_README_indented :
  render (Elem (createElement (Tag "div"%string) None [Text "sub elements"%string]))
         (mkPartial (Some true) None None None) 0
  = Ok ("<div>" +++ newline +++ "    sub elements" +++ newline +++ "</div>")%string.
Proof. reflexivity. Qed.

Example render_If :
  render (Elem (If false [Text "x"%string])) no_options 0 = Ok EmptyString /\
  render (Elem (If true [Text "x"%string])) no_options 0 = Ok "x"%string.
Proof. split; reflexivity. Qed.

Lemma flatten_idempotent_witness :
  let L := [Text "a"%string; Elem (mkElement (Tag "b"%string) [] [Arr [Text "c"%string]])] in
  forallb is_flat L = true /\ flatten L = L.
Proof.
  split; [reflexivity|].
  apply (proj2 (flatten_idempotent
    [Text "a"%string; Elem (mkElement (Tag "b"%string) [] [Arr [Text "c"%string]])])).
  reflexivity.
Defined.

Lemma construction_invariant_witness :
  let t := Elem (new_Element (Tag "div"%string) []
             [Arr [Text "a"%string; Arr [Text "b"%string]];
              Elem (new_Element Fragment [] [Text "c"%string; Arr []]);
              Elem (new_Element (Tag "p"%string) [] [Arr [Text "d"%string]])]) in
  constructed t /\ invariant t.
Proof.
  assert (H : constructed (Elem (new_Element (Tag "div"%string) []
             [Arr [Text "a"%string; Arr [Text "b"%string]];
              Elem (new_Element Fragment [] [Text "c"%string; Arr []]);
              Elem (new_Element (Tag "p"%string) [] [Arr [Text "d"%string]])]))).
  { repeat (constructor; repeat apply Forall_cons; try apply Forall_nil). }
  split; [exact H|].
  exact (proj1 construction_invariant _ H).
Defined.

Lemma document_props_ignored_witness :
  exists indentString rest,
    createIndent (with_defaults no_options) 0 = Ok indentString /\
    ("<!DOCTYPE html><html><head>T</head><body>B</body></html>"%string =
     indentString +++ "<!DOCTYPE html>" +++ nl (with_defaults no_options) +++
     indentString +++ "<html>" +++ nl (with_defaults no_options) +++
     indentString +++ "<head>" +++ rest)%string.
Proof.
  apply (proj2 (proj2 (document_props_ignored
           [("lang"%string, VStr "en"%string)] []
           [Elem (mkElement HEAD [] [Text "T"%string]); Text "B"%string]
           (with_defaults no_options) 0))).
  reflexivity.
Defined.

Lemma Switch_resolution_witness :
  Switch (VNum 2)
    [Elem (Case (VNum 1) [Text "a"%string]); Elem (Case (VNum 2) [Text "b"%string]);
     Elem (Case (VNum 2) [Text "c"%string]); Elem (Default [Text "d"%string])]
  = mkElement Fragment [] [Text "b"%string] /\
  Switch (VNum 9) [Elem (Case (VNum 1) [Text "a"%string]); Elem (Default [Text "d"%string])]
  = mkElement Fragment [] [Text "d"%string] /\
  Switch (VNum 9) [Elem (Case (VNum 1) [Text "a"%string])] = mkElement Fragment [] [].
Proof.
  split; [|split].
  - apply (proj1 (Switch_resolution (VNum 2)
      [Elem (Case (VNum 1) [Text "a"%string]); Elem (Case (VNum 2) [Text "b"%string]);
       Elem (Case (VNum 2) [Text "c"%string]); Elem (Default [Text "d"%string])])
      1%nat (Case (VNum 2) [Text "b"%string])); reflexivity.
  - apply (proj1 (proj2 (Switch_resolution (VNum 9)
      [Elem (Case (VNum 1) [Text "a"%string]); Elem (Default [Text "d"%string])]))
      1%nat (Default [Text "d"%string])); reflexivity.
  - apply (proj2 (proj2 (Switch_resolution (VNum 9)
      [Elem (Case (VNum 1) [Text "a"%string])]))); reflexivity.
Defined.

(** C5, as it is stated, fails: no case child has the scrutinee 2, a
    number, for its case value, and the first default child has the
    child "d"; the switch resolves to the children of the case "2", a
    string, which is equal to the scrutinee for [==] only. *)
Lemma Switch_takes_coerced_case :
  forallb (fun c => negb (is_case_exactly (VNum 2) c))
          [Elem (Case (VStr "2"%string) [Text "a"%string]);
           Elem (Default [Text "d"%string])] = true /\
  find is_DEFAULT [Elem (Case (VStr "2"%string) [Text "a"%string]);
                   Elem (Default [Text "d"%string])]
  = Some (Elem (Default [Text "d"%string])) /\
  Switch (VNum 2) [Elem (Case (VStr "2"%string) [Text "a"%string]);
                   Elem (Default [Text "d"%string])]
  = mkElement Fragment [] [Text "a"%string] /\
  render (Elem (Switch (VNum 2) [Elem (Case (VStr "2"%string) [Text "a"%string]);
                                 Elem (Default [Text "d"%string])]))
         no_options 0 = Ok "a"%string /\
  ~ (forall expr childs i def,
       forallb (fun c => negb (is_case_exactly expr c)) childs = true ->
       nth_error childs i = Some (Elem def) ->
       name def = DEFAULT ->
       forallb (fun c => negb (is_DEFAULT c)) (firstn i childs) = true ->
       Switch expr childs = new_Element Fragment [] (children def)).
Proof.
  split; [reflexivity|]. split; [reflexivity|]. split; [reflexivity|].
  split; [reflexivity|].
  intros H.
  specialize (H (VNum 2)
                [Elem (Case (VStr "2"%string) [Text "a"%string]);
                 Elem (Default [Text "d"%string])]
                1%nat (Default [Text "d"%string])
                eq_refl eq_refl eq_refl eq_refl).
  discriminate H.
Qed.

Lemma Switch_case_equality_witness :
  Switch (VNum 2)
    ([Elem (Case (VNum 1) [Text "z"%string]); Elem (Default [Text "d"%string])]
       ++ Elem (Case (VStr "2"%string) [Text "a"%string]) :: [])
  = mkElement Fragment [] [Text "a"%string] /\
  (loose_eq (VNum 2) (VNum 2) = true <-> same_value (VNum 2) (VNum 2)) /\
  (loose_eq (VStr "2"%string) (VNum 2) = true <->
   (nullish (VStr "2"%string) = true /\ nullish (VNum 2) = true) \/
   number_eqb (numeric_view (VStr "2"%string)) (numeric_view (VNum 2)) = true) /\
  (loose_eq (VStr "9007199254740993"%string) (VNum (2 ^ 53)) = true <->
   (nullish (VStr "9007199254740993"%string) = true /\ nullish (VNum (2 ^ 53)) = true) \/
   number_eqb (numeric_view (VStr "9007199254740993"%string))
              (numeric_view (VNum (2 ^ 53))) = true) /\
  loose_eq (VObj 1 (PStr "2"%string) (Ok "2"%string)) (VNum 2) =
  (if nullish (VNum 2) then false else loose_eq (of_primitive (PStr "2"%string)) (VNum 2)) /\
  loose_eq (VNull) (VObj 1 (PStr "2"%string) (Ok "2"%string)) =
  (if nullish VNull then false else loose_eq VNull (of_primitive (PStr "2"%string))).
Proof.
  split; [|split; [|split; [|split; [|split]]]].
  - apply (proj1 (Switch_case_equality (VNum 2) (VStr "2"%string) [Text "a"%string]
                    [Elem (Case (VNum 1) [Text "z"%string]); Elem (Default [Text "d"%string])]
                    [])).
    reflexivity.
  - apply (proj1 (proj2 (Switch_case_equality (VNum 2) (VNum 2) [Text "b"%string] [] []))).
    reflexivity.
  - apply (proj1 (proj2 (proj2 (Switch_case_equality (VNum 2) (VStr "2"%string)
                                   [Text "a"%string] [] []))));
      reflexivity.
  - apply (proj1 (proj2 (proj2 (Switch_case_equality (VNum (2 ^ 53))
                                   (VStr "9007199254740993"%string)
                                   [Text "a"%string] [] []))));
      reflexivity.
  - apply (proj1 (proj2 (proj2 (proj2 (Switch_case_equality (VNum 2)
                                   (VObj 1 (PStr "2"%string) (Ok "2"%string))
                                   [Text "a"%string] [] []))))
             1%nat (PStr "2"%string) (Ok "2"%string));
      reflexivity.
  - apply (proj2 (proj2 (proj2 (proj2 (Switch_case_equality
                                   (VObj 1 (PStr "2"%string) (Ok "2"%string)) VNull
                                   [Text "a"%string] [] []))))
             1%nat (PStr "2"%string) (Ok "2"%string));
      reflexivity.
Defined.

(** C2, as it is stated, fails: the case value "2", a string, matches
    the scrutinee 2, a number, and the switch resolves to that case
    rather than to the default. *)
Lemma Switch_coerces_case_value :
  vtype_eqb (type_of (VStr "2"%string)) (type_of (VNum 2)) = false /\
  is_case_of (VNum 2) (Elem (Case (VStr "2"%string) [Text "a"%string])) = true /\
  render (Elem (Switch (VNum 2)
                  [Elem (Case (VStr "2"%string) [Text "a"%string]);
                   Elem (Default [Text "d"%string])]))
         no_options 0 = Ok "a"%string /\
  ~ (forall expr c childs,
       type_of c <> type_of expr -> is_case_of expr (Elem (Case c childs)) = false).
Proof.
  split; [reflexivity|]. split; [reflexivity|]. split; [reflexivity|].
  intros H. specialize (H (VNum 2) (VStr "2"%string) []).
  assert (T : type_of (VStr "2"%string) <> type_of (VNum 2)) by discriminate.
  apply H in T. discriminate T.
Qed.



Lemma render_concatenation_witness :
  renderInternal (Arr ([Text "a"%string] ++ [Text "b"%string; Text "c"%string]))
                 (mkOptions true EmptyString 2 (SCBool true)) 1 =
  (a <- renderInternal (Arr [Text "a"%string]) (mkOptions true EmptyString 2 (SCBool true)) 1 ;;
   b <- renderInternal (Arr [Text "b"%string; Text "c"%string])
                       (mkOptions true EmptyString 2 (SCBool true)) 1 ;;
   Ok (a +++ nl (mkOptions true EmptyString 2 (SCBool true)) +++ b)).
Proof.
  apply (render_concatenation [Text "a"%string] [Text "b"%string; Text "c"%string]
           (mkOptions true EmptyString 2 (SCBool true)) 1).
  right. split; discriminate.
Defined.

Lemma flatten_keeps_rendering_witness :
  let l := [Arr [Text "a"%string; Arr [Text "b"%string]];
            Elem (mkElement Fragment [] [Text "c"%string])] in
  let o := mkOptions true EmptyString 4 (SCBool true) in
  renderInternal (Arr (flatten l)) o 1 = renderInternal (Arr l) o 1 /\
  renderInternal (Elem (new_Element Fragment [] l)) o 1 = renderInternal (Arr l) o 1.
Proof.
  apply (flatten_keeps_rendering
           [Arr [Text "a"%string; Arr [Text "b"%string]];
            Elem (mkElement Fragment [] [Text "c"%string])]
           [] (mkOptions true EmptyString 4 (SCBool true)) 1).
  right. reflexivity.
Defined.


Lemma indent_off_ignores_indentation_witness :
  renderInternal (Elem (mkElement (Tag "div"%string) [] [Text "x"%string]))
                 (mkOptions false "--"%string (-3) (SCBool true)) (-7) =
  renderInternal (Elem (mkElement (Tag "div"%string) [] [Text "x"%string]))
                 (mkOptions false EmptyString 4 (SCBool true)) 0.
Proof.
  apply (indent_off_ignores_indentation
           (Elem (mkElement (Tag "div"%string) [] [Text "x"%string]))
           (mkOptions false "--"%string (-3) (SCBool true))
           (mkOptions false EmptyString 4 (SCBool true)) (-7) 0); reflexivity.
Defined.

Lemma createIndent_content_witness :
  createIndent (mkOptions true "ab"%string 7 (SCBool true)) 2 = Ok "abab"%string /\
  (exists t, createIndent (mkOptions true EmptyString 2 (SCBool true)) 3 = Ok t /\
             Z.of_nat (String.length t) = 3 * 2 /\
             t = repeat_nat " "%string (Z.to_nat (3 * 2))) /\
  createIndent (mkRenderOptions (Some true) (Some EmptyString) None (SCBool true)) 3
  = Ok EmptyString.
Proof.
  split; [|split].
  - apply (proj1 (createIndent_content (mkOptions true "ab"%string 7 (SCBool true)) 2
                    "ab"%string 7 eq_refl ltac:(lia)));
      [reflexivity | discriminate | discriminate].
  - apply (proj1 (proj2 (createIndent_content (mkOptions true EmptyString 2 (SCBool true)) 3
                           EmptyString 2 eq_refl ltac:(lia))));
      [reflexivity | reflexivity | lia | discriminate].
  - apply (proj2 (proj2 (createIndent_content
                           (mkRenderOptions (Some true) (Some EmptyString) None (SCBool true))
                           3 EmptyString 0 eq_refl ltac:(lia))));
      reflexivity.
Defined.

Lemma createIndent_throws_witness :
  createIndent (mkOptions true EmptyString (-1) (SCBool true)) 1 = Throw RangeError /\
  createIndent (mkOptions true EmptyString (2 ^ 30) (SCBool true)) 1 = Throw RangeError /\
  createIndent (mkRenderOptions (Some true) None (Some 4) (SCBool true)) 1 = Throw TypeError.
Proof.
  split; [|split].
  - apply (proj2 (createIndent_throws (mkOptions true EmptyString (-1) (SCBool true)) 1
                    RangeError)).
    split; [reflexivity|]. right. right. exists (-1).
    split; [reflexivity|]. split; [reflexivity|]. split; [reflexivity|]. left. reflexivity.
  - apply (proj2 (createIndent_throws (mkOptions true EmptyString (2 ^ 30) (SCBool true)) 1
                    RangeError)).
    split; [reflexivity|]. right. right. exists (2 ^ 30).
    split; [reflexivity|]. split; [reflexivity|]. split; [reflexivity|]. right. reflexivity.
  - apply (proj2 (createIndent_throws
                    (mkRenderOptions (Some true) None (Some 4) (SCBool true)) 1 TypeError)).
    split; [reflexivity|]. left. split; reflexivity.
Defined.

Lemma createAttrs_format_witness :
  createAttrs [("id"%string, VNum 7); ("title"%string, VStr "a<b"%string);
               ("hidden"%string, VBool true)]
  = Ok (attrs_text ["id"; "title"; "hidden"] ["7"; "a<b"; "true"])%string.
Proof.
  apply (createAttrs_format
           [("id"%string, VNum 7); ("title"%string, VStr "a<b"%string);
            ("hidden"%string, VBool true)]
           ["7"; "a<b"; "true"]%string); reflexivity.
Defined.

Lemma alias_class_lookup_witness :
  get (alias_class [("id"%string, VStr "a"%string); ("className"%string, VStr "x"%string)])
      "id"%string
  = get [("id"%string, VStr "a"%string); ("className"%string, VStr "x"%string)] "id"%string.
Proof.
  apply (proj2 (alias_class_lookup
                  [("id"%string, VStr "a"%string); ("className"%string, VStr "x"%string)])).
  reflexivity.
Defined.

Lemma alias_class_keys_witness :
  nodupb (keys (alias_class [("className"%string, VStr "x"%string);
                             ("id"%string, VStr "a"%string)])) = true.
Proof.
  apply (proj2 (alias_class_keys [("className"%string, VStr "x"%string);
                                  ("id"%string, VStr "a"%string)])).
  reflexivity.
Defined.

Lemma createAttrs_throws_witness :
  createAttrs [("id"%string, VStr "a"%string); ("key"%string, VSym 3)] = Throw TypeError /\
  createAttrs [("id"%string, VObj 1 PNaN (Throw (Thrown 7))); ("key"%string, VSym 3)]
  = Throw (Thrown 7).
Proof.
  split.
  - apply (proj2 (createAttrs_throws
                    [("id"%string, VStr "a"%string); ("key"%string, VSym 3)] TypeError)).
    + reflexivity.
    + split; [reflexivity|]. exists "key"%string, 3%nat.
      split; [right; left; reflexivity | reflexivity].
  - apply (proj1 (createAttrs_throws
                    [("id"%string, VObj 1 PNaN (Throw (Thrown 7))); ("key"%string, VSym 3)]
                    (Thrown 7))).
    exists [], "id"%string, ["key"%string].
    split; [reflexivity|]. split; reflexivity.
Defined.

Lemma tag_with_closing_witness :
  renderInternal (Elem (mkElement (Tag "br"%string) [] [])) 
                 (mkOptions false EmptyString 4 (SCBool false)) 0 =
  Ok "<br></br>"%string.
Proof.
  rewrite (tag_with_closing "br"%string [] []
             (mkOptions false EmptyString 4 (SCBool false)) 0); [reflexivity|].
  right. reflexivity.
Defined.

Lemma Switch_case_over_default_witness :
  Switch (VNum 2) [Elem (Default [Text "d"%string]); Elem (Case (VNum 2) [Text "b"%string])]
  = Switch (VNum 2)
      (filter (fun c => negb (is_DEFAULT c))
         [Elem (Default [Text "d"%string]); Elem (Case (VNum 2) [Text "b"%string])]).
Proof.
  apply (Switch_case_over_default (VNum 2)
           [Elem (Default [Text "d"%string]); Elem (Case (VNum 2) [Text "b"%string])]).
  reflexivity.
Defined.




Lemma renderer_wraps_once_witness :
  renderer no_options (mkElement (Tag "p"%string) [] [Text "x"%string])
  = render (Elem (mkElement HTML [] [Elem (mkElement (Tag "p"%string) [] [Text "x"%string])]))
           (create_options no_options) 0 /\
  renderer no_options (mkElement Fragment [] [Elem (Head [] [Text "T"%string]); Text "B"%string])
  = renderer no_options (HtmlPage [] [Elem (Head [] [Text "T"%string]); Text "B"%string]).
Proof.
  split.
  - apply (proj1 (proj2 (proj2 (renderer_wraps_once no_options
             (mkElement (Tag "p"%string) [] [Text "x"%string])))));
      discriminate.
  - apply (proj2 (proj2 (proj2 (proj2 (proj2 (renderer_wraps_once no_options
             (mkElement Fragment [] [Elem (Head [] [Text "T"%string]); Text "B"%string]))))))
             [] [Elem (Head [] [Text "T"%string]); Text "B"%string]).
    reflexivity.
Defined.

Lemma renderer_gives_document_witness :
  exists middle,
    "<!DOCTYPE html><html><head></head><body><p>x</p></body></html>"%string =
    ("<!DOCTYPE html>" +++ nl (with_defaults (create_options no_options)) +++
     "<html>" +++ nl (with_defaults (create_options no_options)) +++
     "<head>" +++ middle +++ "</html>")%string.
Proof.
  apply (renderer_gives_document no_options
           (mkElement (Tag "p"%string) [] [Text "x"%string])).
  reflexivity.
Defined.

Lemma create_self_closing_witness :
  renderInternal (Elem (mkElement (Tag "br"%string) [] []))
                 (with_defaults (create_options no_options)) 0 = Ok "<br />"%string /\
  renderInternal (Elem (mkElement (Tag "div"%string) [] []))
                 (with_defaults (create_options (self_close_with SCUndefined))) 0
  = Ok "<div></div>"%string /\
  with_defaults (create_options (self_close_with (SCBool false)))
  = with_defaults (self_close_with (SCBool false)).
Proof.
  split; [|split].
  - rewrite (proj1 (create_self_closing no_options "br"%string [] 0));
      [reflexivity | left; reflexivity].
  - rewrite (proj1 (create_self_closing (self_close_with SCUndefined) "div"%string [] 0));
      [reflexivity | right; reflexivity].
  - apply (proj2 (create_self_closing (self_close_with (SCBool false)) "br"%string [] 0)
             (SCBool false)); [reflexivity | discriminate].
Defined.

Lemma createHandler_response_witness :
  VNum 404 = (if is_number (get [("status"%string, VNum 404)] "status"%string)
              then get [("status"%string, VNum 404)] "status"%string
              else VNum 200) /\
  VNum 200 = VNum 200.
Proof.
  split.
  - refine (proj2 (proj2 (proj2 (createHandler_response no_options
             (fun (_ _ : unit) ch => HtmlPage [("status"%string, VNum 404)] ch)
             None tt tt (VNum 404)
             "<!DOCTYPE html><html><head></head><body></body></html>"%string
             eq_refl))) eq_refl eq_refl).
  - refine (proj1 (proj2 (proj2 (createHandler_response no_options
             (fun (_ _ : unit) ch => new_Element (Tag "p"%string)
                                       [("status"%string, VNum 404)] ch)
             None tt tt (VNum 200)
             ("<!DOCTYPE html><html><head></head><body><p" +++ attr "status" "404" +++
              "></p></body></html>")%string
             eq_refl))) eq_refl _).
    discriminate.
Defined.

Lemma generators_keep_invariant_witness :
  invariant (Elem (Switch (VNum 1)
                     [Elem (Case (VNum 1) [Arr [Text "a"%string]; Text "b"%string])])).
Proof.
  apply (proj1 (proj2 (generators_keep_invariant
           [Elem (Case (VNum 1) [Arr [Text "a"%string]; Text "b"%string])]
           ltac:(repeat constructor)))).
Defined.
